(** * Patient Counter: session ledger, current-session state, history filter,
      local-storage adapter and offline asset cache.

    A shallow embedding of [src/App.tsx] and of the service worker
    [public/sw.js].  React state is modelled by explicit state passing: every
    UI handler is a function from the application state to the next one, and
    the values the handlers read from the environment ([localISO()],
    [uuidv4()], [todayISO()]) are arguments of the event that triggers them.

    Modelling conventions.
    - JavaScript strings are [string]; [<] and [===] compare by character
      code.  [localeCompare] depends on the locale of the browser and is a
      parameter of the model (the class [Js.Collation]).
    - Counts and totals are numbers that hold integers ([Z]).  The total of
      a record grows by [Js.add], the sum rounded to 53 significant bits as
      JavaScript rounds it; it is the exact sum on safe integers
      ([Js.safeInteger]), and the properties that rest on an exact sum say
      so.  The counters stay within 0 and 99, where every sum is exact.
    - [string | null] is [option string]; a value is "falsy" when it is
      [None] or the empty string. *)

From Stdlib Require Import ZArith String Ascii Sorted Permutation.
From stdpp Require Import base decidable option list sorting strings pretty.
From stdpp Require Import gmap.

#[local] Set Warnings "-clear-no-such-hyp".

Local Open Scope string_scope.
Local Open Scope Z_scope.

(** ** The JavaScript built-ins the handlers use *)
Module Js.

(** [Boolean(v)] for a [string]. *)
Definition nonempty (s : string) : bool := negb (bool_decide (s = "")).

(** [Boolean(v)] for a [string | null]. *)
Definition truthy (v : option string) : bool :=
  match v with
  | Some s => nonempty s
  | None => false
  end.

(** [a.localeCompare(b)]: negative, zero or positive.  What it returns is up
    to the collation of the browser's locale, so the model takes it as a
    parameter. *)
Class Collation := localeCompare : string → string → Z.

(** The order of the character codes, as -1, 0 or 1. *)
Definition codeCompare (a b : string) : Z :=
  match String.compare a b with
  | Lt => -1
  | Eq => 0
  | Gt => 1
  end.

(** The collation orders [a] and [b] the way their character codes do. *)
Definition byCode `{!Collation} (a b : string) : Prop :=
  Z.sgn (localeCompare a b) = codeCompare a b.

(** The collation orders the texts of a class [P] the way their character
    codes do.  The dates [YYYY-MM-DD] of the date picker and the timestamps
    of [toISOString] are such a class: they differ first at a digit. *)
Definition byCodeOn `{!Collation} (P : string → Prop) : Prop :=
  ∀ a b, P a → P b → byCode a b.

(** The collation that is the order of the character codes. *)
Definition codeOrder : Collation := codeCompare.

(** Upper-case Latin letters as lower-case ones. *)
Definition foldCase (c : ascii) : ascii :=
  let n := nat_of_ascii c in
  if (65 <=? n)%nat && (n <=? 90)%nat then ascii_of_nat (n + 32) else c.

Fixpoint foldCases (s : string) : string :=
  match s with
  | EmptyString => EmptyString
  | String c s' => String (foldCase c) (foldCases s')
  end.

(** A collation of the kind browsers have: unaccented Latin letters
    alphabetically, whatever their case, and a lower-case letter before the
    same letter in upper case.  In it, as in the browsers, [a] comes before
    [B], which the character codes order the other way. *)
Definition alphabetical : Collation := λ a b,
  match String.compare (foldCases a) (foldCases b) with
  | Lt => -1
  | Eq => codeCompare b a
  | Gt => 1
  end.

(** [Number.MAX_SAFE_INTEGER], and the integers up to it in magnitude. *)
Definition MAX_SAFE_INTEGER : Z := 2 ^ 53 - 1.

Definition safeInteger (n : Z) : Prop :=
  - MAX_SAFE_INTEGER ≤ n ≤ MAX_SAFE_INTEGER.

(** The number nearest to an integer.  A number has a significand of 53
    bits: an integer below 2^53 in magnitude is a number; a larger one is
    rounded to 53 leading bits, to the nearest such value and, half way
    between two, to the one whose significand is even. *)
Definition toNumber (n : Z) : Z :=
  let m := Z.abs n in
  let e := Z.log2 m - 52 in
  if e <=? 0 then n
  else
    let q := Z.shiftr m e in
    let r := m - Z.shiftl q e in
    let half := Z.shiftl 1 (e - 1) in
    let q' := if (half <? r) || ((r =? half) && Z.odd q) then q + 1 else q in
    Z.sgn n * Z.shiftl q' e.

(** [a + b] on numbers that hold integers: the exact sum, rounded. *)
Definition add (a b : Z) : Z := toNumber (a + b).

(** [a < b] and [a > b] on strings: the order of the character codes. *)
Definition lt (a b : string) : bool := String.ltb a b.
Definition gt (a b : string) : bool := String.ltb b a.

(** [s.slice(start, end)] for [0 <= start <= end]. *)
Definition slice (s : string) (start stop : nat) : string :=
  substring start (stop - start) s.

(** [Math.max] and [Math.min] on integers. *)
Definition Math_max (a b : Z) : Z := Z.max a b.
Definition Math_min (a b : Z) : Z := Z.min a b.

(** [Array.prototype.sort(comparefn)].  The language fixes the result for a
    consistent comparator: the stable arrangement in which [a] comes before
    [b] whenever [comparefn(a, b) < 0].  Insertion from the right computes
    it: an element moves past exactly those it compares greater than.  With
    any other comparator the language leaves the order open and promises a
    rearrangement only; the properties below that speak of the order are
    about lists on which the comparator is consistent. *)
Section Sort.
Context {A : Type} (comparefn : A → A → Z).

Fixpoint insert (x : A) (l : list A) : list A :=
  match l with
  | [] => [x]
  | y :: l' => if 0 <? comparefn x y then y :: insert x l' else x :: l
  end.

Fixpoint sort (l : list A) : list A :=
  match l with
  | [] => []
  | x :: l' => insert x (sort l')
  end.

(** [a] may stand before [b]: the comparator does not put [b] first. *)
Definition inOrder (a b : A) : Prop := comparefn a b ≤ 0.

End Sort.

(** [arr.findIndex(p)], with [None] for [-1]; the element found comes with
    its index. *)
Definition findIndex {A} (P : A → Prop) `{∀ x, Decision (P x)}
    (l : list A) : option (nat * A) := list_find P l.

(** [arr.filter(p)] builds a new array.  The pair is the receiver as the call
    leaves it and the array returned. *)
Definition Array_filter {A} (p : A → bool) (receiver : list A)
    : list A * list A := (receiver, List.filter p receiver).

(** [String(n)] for an integer: its decimal numeral (what JavaScript prints
    for every integer of magnitude below 10^21). *)
Definition numberToString (n : Z) : string := pretty n.

(** The first [k] characters of [rest] followed by [pad] repeated. *)
Fixpoint fill (k : nat) (pad rest : string) : string :=
  match k with
  | O => ""
  | S k' =>
      match rest with
      | String c rest' => String c (fill k' pad rest')
      | EmptyString =>
          match pad with
          | String c rest' => String c (fill k' pad rest')
          | EmptyString => ""
          end
      end
  end.

(** The comparison [sort()] uses when it is given no comparator: strings by
    the order of the character codes. *)
Definition defaultCompare (a b : string) : Z :=
  if lt a b then -1 else if lt b a then 1 else 0.

(** [new Set()] with [add]: the elements in insertion order, each once. *)
Definition Set_add (x : string) (set : list string) : list string :=
  if decide (x ∈ set) then set else (set ++ [x])%list.

(** [s.split(sep)] for a separator of one character: the pieces of [s]
    between the occurrences of [sep]. *)
Fixpoint split (sep : ascii) (s : string) : list string :=
  match s with
  | EmptyString => [""]
  | String c s' =>
      if bool_decide (c = sep) then "" :: split sep s'
      else
        match split sep s' with
        | piece :: pieces => String c piece :: pieces
        | [] => [String c ""]
        end
  end.

(** A piece of a destructured array inside a template literal: a missing
    element prints as [undefined]. *)
Definition printed (piece : option string) : string :=
  default "undefined" piece.

(** [s.padStart(targetLength, padString)] *)
Definition padStart (s : string) (targetLength : nat) (padString : string)
    : string :=
  fill (targetLength - String.length s) padString padString +:+ s.

End Js.

(** ** Types *)

Record Session := mkSession {
  sessionId : string;
  date : string;
  location : string;
  total : Z;
  finishedAt : string;
}.

#[global] Instance Session_eq_dec : EqDecision Session.
Proof. solve_decision. Defined.

(** [CurrentState]; the fields [date] and [location] carry a prefix because
    [Session] has fields of the same names. *)
Record CurrentState := mkCurrent {
  cur_date : option string;
  cur_location : option string;
  newCount : Z;
  oldCount : Z;
  locked : bool;
}.

(** ** Helpers *)

Definition clamp (v min max : Z) : Z := Js.Math_max min (Js.Math_min max v).

Definition pad2 (n : Z) : string := Js.padStart (Js.numberToString n) 2 "0".

Definition formatDateDMY (iso : string) : string :=
  let parts := Js.split "-"%char iso in
  let y := parts !! 0%nat in
  let m := parts !! 1%nat in
  let d := parts !! 2%nat in
  Js.printed d +:+ "/" +:+ Js.printed m +:+ "/" +:+ Js.printed y.

(** The text has no hyphen. *)
Fixpoint hyphenFree (s : string) : Prop :=
  match s with
  | EmptyString => True
  | String c s' => c ≠ "-"%char ∧ hyphenFree s'
  end.

(** ** Session ledger *)
Module Ledger.

(** The comparator passed to [sort] in [doFinish] (and again in the history
    view and in the export). *)
Definition byDateThenRecency `{!Js.Collation} (a b : Session) : Z :=
  if bool_decide (date a = date b)
  then Js.localeCompare (finishedAt b) (finishedAt a)
  else Js.localeCompare (date b) (date a).

(** The predicate of [findIndex] in [doFinish]. *)
Definition sameSlot (d l : string) (r : Session) : Prop :=
  date r = d ∧ location r = l.

#[global] Instance sameSlot_dec d l r : Decision (sameSlot d l r).
Proof. unfold sameSlot. apply _. Defined.

(** The updater handed to [setSessions] in [doFinish]: [d], [l] and [amount]
    are [current.date], [current.location] and [total]; [ts] is what
    [localISO()] returns and [uuid] what [uuidv4()] returns. *)
Definition mergeOrAppend `{!Js.Collation} (d l : string) (amount : Z)
    (ts uuid : string) (prev : list Session) : list Session :=
  match Js.findIndex (sameSlot d l) prev with
  | Some (idx, r) =>
      let merged :=
        <[idx := mkSession (sessionId r) (date r) (location r)
                   (Js.add (total r) amount) ts]> prev in
      Js.sort byDateThenRecency merged
  | None =>
      let next := mkSession uuid d l amount ts in
      Js.sort byDateThenRecency (next :: prev)
  end.

(** The merge key of a record. *)
Definition slot (r : Session) : string * string := (date r, location r).

(** Key uniqueness: no two records share a (date, location) pair. *)
Definition uniqueSlots (ledger : list Session) : Prop :=
  NoDup (slot <$> ledger).

(** The display order: a record may stand before another when its date is
    not smaller and, on equal dates, its [finishedAt] is not smaller; both
    by the lexicographic order of strings. *)
Definition mayPrecede (a b : Session) : Prop :=
  String.leb (date b) (date a) = true ∧
  (date a = date b → String.leb (finishedAt b) (finishedAt a) = true).

(** The dates and the timestamps of a ledger belong to a class of texts. *)
Definition textsIn (P : string → Prop) (ledger : list Session) : Prop :=
  ∀ r, r ∈ ledger → P (date r) ∧ P (finishedAt r).

(** The totals of the ledger and their sums with [amount] are safe
    integers: adding [amount] to a total rounds nothing away. *)
Definition addsExactly (amount : Z) (ledger : list Session) : Prop :=
  Js.safeInteger amount ∧
  ∀ r, r ∈ ledger →
       Js.safeInteger (total r) ∧ Js.safeInteger (total r + amount).

(** The sum of a list of integers. *)
Definition sumZ (zs : list Z) : Z := foldr Z.add 0 zs.

(** The tally of a slot: the totals of the records with that key, added up;
    and the tally of the whole ledger. *)
Definition tally (d l : string) (ledger : list Session) : Z :=
  sumZ (total <$> filter (sameSlot d l) ledger).

Definition grandTotal (ledger : list Session) : Z := sumZ (total <$> ledger).

End Ledger.

(** ** The application state and its handlers *)
Module App.

(** The argument of [onInc], [onDec] and [onReset]:
    ["newCount" | "oldCount"]. *)
Inductive CounterKey := NewCount | OldCount.

(** [s[key]] *)
Definition getCount (key : CounterKey) (s : CurrentState) : Z :=
  match key with
  | NewCount => newCount s
  | OldCount => oldCount s
  end.

(** [{ ...s, [key]: val, locked: l }] *)
Definition setCount (key : CounterKey) (val : Z) (l : bool)
    (s : CurrentState) : CurrentState :=
  match key with
  | NewCount => mkCurrent (cur_date s) (cur_location s) val (oldCount s) l
  | OldCount => mkCurrent (cur_date s) (cur_location s) (newCount s) val l
  end.

(** The three pieces of React state the handlers touch. *)
Record State := mkState {
  sessions : list Session;
  current : CurrentState;
  showFinish : bool;
}.

Definition setCurrent (f : CurrentState → CurrentState) (st : State) : State :=
  mkState (sessions st) (f (current st)) (showFinish st).

Definition setSessions (f : list Session → list Session) (st : State)
    : State :=
  mkState (f (sessions st)) (current st) (showFinish st).

Definition setShowFinish (b : bool) (st : State) : State :=
  mkState (sessions st) (current st) b.

(** [const total = current.newCount + current.oldCount] *)
Definition totalOf (c : CurrentState) : Z := newCount c + oldCount c.

Definition canStart (c : CurrentState) : bool :=
  Js.truthy (cur_date c) && Js.truthy (cur_location c).

Definition counterEnabled (c : CurrentState) : bool := canStart c.

Definition onInc (key : CounterKey) (st : State) : State :=
  if negb (counterEnabled (current st)) then st
  else
    setCurrent (λ s,
      let val := clamp (getCount key s + 1) 0 99 in
      setCount key val
        (locked s || (0 <? val) || (0 <? newCount s + oldCount s)) s) st.

Definition onDec (key : CounterKey) (st : State) : State :=
  if negb (counterEnabled (current st)) then st
  else
    setCurrent (λ s,
      let val := clamp (getCount key s - 1) 0 99 in
      setCount key val (locked s || (0 <? newCount s + oldCount s)) s) st.

Definition onReset (key : CounterKey) (st : State) : State :=
  if negb (counterEnabled (current st)) then st
  else setCurrent (λ s, setCount key 0 (locked s) s) st.

Definition changeDate (val : string) (st : State) : State :=
  if locked (current st) then st
  else
    setCurrent (λ s,
      mkCurrent (Some val) (cur_location s) (newCount s) (oldCount s)
        (locked s)) st.

Definition changeLocation (val : string) (st : State) : State :=
  if locked (current st) then st
  else
    setCurrent (λ s,
      mkCurrent (cur_date s) (Some val) (newCount s) (oldCount s)
        (locked s)) st.

(** The guard of [doFinish]:
    [total === 0 || !current.date || !current.location]. *)
Definition finishRefused (c : CurrentState) : bool :=
  bool_decide (totalOf c = 0) || negb (Js.truthy (cur_date c))
  || negb (Js.truthy (cur_location c)).

(** [doFinish]; [ts] and [uuid] are the values [localISO()] and [uuidv4()]
    return during the call.  Past the guard both selections are strings, so
    the last branch is never taken. *)
Definition doFinish `{!Js.Collation} (ts uuid : string) (st : State)
    : State :=
  if finishRefused (current st) then setShowFinish false st
  else
    match cur_date (current st), cur_location (current st) with
    | Some d, Some l =>
        let st1 :=
          setSessions
            (Ledger.mergeOrAppend d l (totalOf (current st)) ts uuid) st in
        let st2 :=
          setCurrent (λ s,
            mkCurrent (cur_date s) (cur_location s) 0 0 false) st1 in
        setShowFinish false st2
    | _, _ => setShowFinish false st
    end.

(** What the user can do to the counting screen. *)
Inductive Event :=
  | Inc (key : CounterKey)
  | Dec (key : CounterKey)
  | Reset (key : CounterKey)
  | SetDate (val : string)
  | SetLocation (val : string)
  | AskFinish
  | CancelFinish
  | Finish (ts uuid : string).

Definition step `{!Js.Collation} (st : State) (e : Event) : State :=
  match e with
  | Inc key => onInc key st
  | Dec key => onDec key st
  | Reset key => onReset key st
  | SetDate val => changeDate val st
  | SetLocation val => changeLocation val st
  | AskFinish => setShowFinish true st
  | CancelFinish => setShowFinish false st
  | Finish ts uuid => doFinish ts uuid st
  end.

Definition run `{!Js.Collation} (st : State) (es : list Event) : State :=
  foldl step st es.

(** The default of [loadCurrent]; [today] is what [todayISO()] returns. *)
Definition freshCurrent (today : string) : CurrentState :=
  mkCurrent (Some today) None 0 0 false.

(** The application as it starts on a device without a saved session in
    progress, over the stored ledger. *)
Definition start (today : string) (ledger : list Session) : State :=
  mkState ledger (freshCurrent today) false.

(** Both counters lie in [0, 99]. *)
Definition countersInRange (c : CurrentState) : Prop :=
  0 ≤ newCount c ≤ 99 ∧ 0 ≤ oldCount c ≤ 99.

(** No counter is negative, and a positive total implies the lock. *)
Definition latched (c : CurrentState) : Prop :=
  0 ≤ newCount c ∧ 0 ≤ oldCount c ∧ (0 < totalOf c → locked c = true).

(** A finish that passes the guard of [doFinish]. *)
Definition successfulFinish (st : State) (e : Event) : Prop :=
  match e with
  | Finish _ _ => finishRefused (current st) = false
  | _ => False
  end.

(** No event of the sequence, run from [st], is a finish that passes the
    guard. *)
Fixpoint noFinishAccepted `{!Js.Collation} (st : State) (es : list Event)
    : Prop :=
  match es with
  | [] => True
  | e :: es' => ¬ successfulFinish st e ∧ noFinishAccepted (step st e) es'
  end.

(** The texts an event brings in (a date picked, the time of a finish)
    belong to a class of texts. *)
Definition eventIn (P : string → Prop) (e : Event) : Prop :=
  match e with
  | SetDate val => P val
  | Finish ts _ => P ts
  | _ => True
  end.

(** The dates and the timestamps a state holds (those of the ledger and
    the date selected) belong to a class of texts. *)
Definition stateIn (P : string → Prop) (st : State) : Prop :=
  Ledger.textsIn P (sessions st) ∧
  ∀ d, cur_date (current st) = Some d → P d.

(** An event of the counter buttons. *)
Definition counterEvent (e : Event) : Prop :=
  match e with
  | Inc _ | Dec _ | Reset _ => True
  | _ => False
  end.

(** The other counter. *)
Definition otherKey (key : CounterKey) : CounterKey :=
  match key with
  | NewCount => OldCount
  | OldCount => NewCount
  end.

End App.

(** ** Local store adapter *)
Module Store.

Definition SESSIONS_KEY : string := "pc_sessions_v1".
Definition CURRENT_KEY : string := "pc_current_v1".
Definition LOCATIONS_KEY : string := "pc_locations_v1".

Definition DEFAULT_LOCATIONS : list string :=
  ["Dhaka"; "Barisal"; "Gazipur"; "Sirajganj (KYAMCH)"; "Clinic A"].

(** What a statement can throw here. *)
Inductive Exn := SecurityError | QuotaExceededError | SyntaxError.

(** The outcome of evaluating an expression: a value or an exception. *)
Inductive Completion (A : Type) :=
  | Normal (a : A)
  | Throw (e : Exn).
Arguments Normal {A} a.
Arguments Throw {A} e.

(** Sequencing: an exception skips the rest of the block. *)
#[global] Instance Completion_bind : MBind Completion := λ A B k c,
  match c with
  | Normal a => k a
  | Throw e => Throw e
  end.

(** [try { body } catch { handler }] *)
Definition try_catch {A} (body handler : Completion A) : Completion A :=
  match body with
  | Normal a => Normal a
  | Throw _ => handler
  end.

(** The browser's [localStorage].  It may be out of reach (every access
    throws [SecurityError]), and it may turn a write down (quota exceeded,
    private browsing): [accepts] says which writes it takes. *)
Record LocalStorage := mkStorage {
  reachable : bool;
  accepts : string → string → bool;
  items : gmap string string;
}.

Definition getItem (ls : LocalStorage) (key : string)
    : Completion (option string) :=
  if reachable ls then Normal (items ls !! key) else Throw SecurityError.

Definition setItem (ls : LocalStorage) (key value : string)
    : Completion LocalStorage :=
  if negb (reachable ls) then Throw SecurityError
  else if negb (accepts ls key value) then Throw QuotaExceededError
  else
    Normal
      (mkStorage (reachable ls) (accepts ls) (<[key := value]> (items ls))).

Section Codec.

(** [JSON.parse], read at the type the cast after it names ([None]: the text
    is malformed), and [JSON.stringify], for the three persisted records. *)
Context (parseSessions : string → option (list Session))
  (stringifySessions : list Session → string)
  (parseCurrent : string → option CurrentState)
  (stringifyCurrent : CurrentState → string)
  (parseLocations : string → option (list string))
  (stringifyLocations : list string → string).

(** [JSON.parse(raw)]: malformed text throws [SyntaxError]. *)
Definition JSON_parse {T} (read : string → option T) (raw : string)
    : Completion T :=
  match read raw with
  | Some v => Normal v
  | None => Throw SyntaxError
  end.

Definition loadSessions (ls : LocalStorage) : Completion (list Session) :=
  try_catch
    (raw ← getItem ls SESSIONS_KEY;
     match raw with
     | Some r =>
         if Js.nonempty r then JSON_parse parseSessions r else Normal []
     | None => Normal []
     end)
    (Normal []).

Definition saveSessions (list : list Session) (ls : LocalStorage)
    : Completion LocalStorage :=
  setItem ls SESSIONS_KEY (stringifySessions list).

(** [today] is what [todayISO()] returns. *)
Definition loadCurrent (today : string) (ls : LocalStorage)
    : Completion CurrentState :=
  try_catch
    (raw ← getItem ls CURRENT_KEY;
     match raw with
     | Some r =>
         if Js.nonempty r then JSON_parse parseCurrent r
         else Normal (App.freshCurrent today)
     | None => Normal (App.freshCurrent today)
     end)
    (Normal (App.freshCurrent today)).

Definition saveCurrent (s : CurrentState) (ls : LocalStorage)
    : Completion LocalStorage :=
  setItem ls CURRENT_KEY (stringifyCurrent s).

(** [`Clinic ${String.fromCharCode(65 + i)}`] *)
Definition placeholder (i : nat) : string :=
  "Clinic " +:+ String (ascii_of_nat (65 + i)) "".

(** The tail of the [try] block of [loadLocations]: copy [arr], push a
    placeholder for every index from its length up to 4, keep the first
    five. *)
Definition fiveSlots (arr : list string) : list string :=
  let n := List.length arr in
  let fixed := (arr ++ (placeholder <$> seq n (5 - n)))%list in
  take 5 fixed.

Definition loadLocations (ls : LocalStorage) : Completion (list string) :=
  try_catch
    (raw ← getItem ls LOCATIONS_KEY;
     arr ← match raw with
           | Some r =>
               if Js.nonempty r then JSON_parse parseLocations r
               else Normal DEFAULT_LOCATIONS
           | None => Normal DEFAULT_LOCATIONS
           end;
     Normal (fiveSlots arr))
    (Normal DEFAULT_LOCATIONS).

Definition saveLocations (names : list string) (ls : LocalStorage)
    : Completion LocalStorage :=
  setItem ls LOCATIONS_KEY (stringifyLocations (take 5 names)).

End Codec.

(** The stored text under a key, parsed: what a load is to return.  There is
    none when the store is out of reach, the key is absent (or holds the
    empty text), or the text is malformed. *)
Definition stored {T} (read : string → option T) (key : string)
    (ls : LocalStorage) : option T :=
  if reachable ls then
    match items ls !! key with
    | Some r => if Js.nonempty r then read r else None
    | None => None
    end
  else None.

(** The store after a write of [value] under [key]. *)
Definition written (key value : string) (ls : LocalStorage) : LocalStorage :=
  mkStorage (reachable ls) (accepts ls) (<[key := value]> (items ls)).

(** Whether the store takes the write. *)
Definition writable (key value : string) (ls : LocalStorage) : bool :=
  reachable ls && accepts ls key value.

(** What a write the store does not take throws. *)
Definition refusal (ls : LocalStorage) : Exn :=
  if reachable ls then QuotaExceededError else SecurityError.

(** A store no script may touch, and one that is full. *)
Definition sealed : LocalStorage := mkStorage false (λ _ _, true) ∅.
Definition full : LocalStorage := mkStorage true (λ _ _, false) ∅.

(** A JSON string literal (of a text that needs no escapes). *)
Definition quoted (s : string) : string :=
  String "034"%char s +:+ String "034"%char "".

(** The JSON text of a one-entry location list, [JSON.parse] on it, and a
    store that holds it. *)
Definition oneLocationText : string := "[" +:+ quoted "Dhaka" +:+ "]".

Definition parseOneLocation (raw : string) : option (list string) :=
  if bool_decide (raw = oneLocationText) then Some ["Dhaka"] else None.

Definition oneLocationStore : LocalStorage :=
  mkStorage true (λ _ _, true) {[ LOCATIONS_KEY := oneLocationText ]}.

(** The JSON text of a one-record ledger, [JSON.parse] on it, and a store
    that holds it. *)
Definition oneSession : Session :=
  mkSession "a" "2024-01-01" "Dhaka" 4 "2024-01-01T09:00:00.000Z".

Definition oneSessionText : string :=
  "[{" +:+ quoted "sessionId" +:+ ":" +:+ quoted "a" +:+ ","
  +:+ quoted "date" +:+ ":" +:+ quoted "2024-01-01" +:+ ","
  +:+ quoted "location" +:+ ":" +:+ quoted "Dhaka" +:+ ","
  +:+ quoted "total" +:+ ":4,"
  +:+ quoted "finishedAt" +:+ ":" +:+ quoted "2024-01-01T09:00:00.000Z"
  +:+ "}]".

Definition parseOneSession (raw : string) : option (list Session) :=
  if bool_decide (raw = oneSessionText) then Some [oneSession] else None.

Definition oneSessionStore : LocalStorage :=
  mkStorage true (λ _ _, true) {[ SESSIONS_KEY := oneSessionText ]}.

End Store.

(** ** The location slots *)
Module Locations.

(** The label the rename dialog writes into slot [i]:
    [e.target.value || DEFAULT_LOCATIONS[i] || `Clinic ${...}`]. *)
Definition labelFor (i : nat) (value : string) : string :=
  if Js.nonempty value then value
  else
    match Store.DEFAULT_LOCATIONS !! i with
    | Some def => if Js.nonempty def then def else Store.placeholder i
    | None => Store.placeholder i
    end.

(** The [onChange] handler of the input of slot [i] in the rename dialog:
    [copy = [...locations]; copy[i] = ...; setLocations(copy)].  The dialog
    has one input per entry of [locations], so [i] is an index of the list;
    for any other index the model leaves the list as it is. *)
Definition renameLocation (i : nat) (value : string)
    (locations : list string) : list string :=
  <[i := labelFor i value]> locations.

End Locations.

(** ** History filter *)
Module History.

Record Filters := mkFilters {
  locFilter : string;
  yearFilter : string;
  monthFilter : Z;
  from : string;
  to : string;
}.

(** The filter state as [useState] initialises it. *)
Definition noFilters : Filters := mkFilters "ALL" "ALL" 0 "" "".

(** The entries of the year filter: the first four characters of every date,
    each once, [sort()]ed and [reverse()]d. *)
Definition years (sessions : list Session) : list string :=
  let set :=
    foldl (λ set s, Js.Set_add (Js.slice (date s) 0 4) set) [] sessions in
  reverse (Js.sort Js.defaultCompare set).

(** Only the year filter is set. *)
Definition onlyYear (y : string) : Filters := mkFilters "ALL" y 0 "" "".

Section Filtered.

(** [Number(text)] where it is an integer; [None] stands for [NaN] and for
    every value that is not an integer, none of which is [===] to a month. *)
Context (Number : string → option Z).

(** The callback of [sessions.filter] in [filtered]. *)
Definition keeps (f : Filters) (s : Session) : bool :=
  if negb (bool_decide (locFilter f = "ALL"))
     && negb (bool_decide (location s = locFilter f)) then false
  else if negb (bool_decide (yearFilter f = "ALL"))
     && negb (bool_decide (Js.slice (date s) 0 4 = yearFilter f)) then false
  else if negb (bool_decide (monthFilter f = 0))
     && negb (bool_decide
                (Number (Js.slice (date s) 5 7) = Some (monthFilter f)))
     then false
  else if Js.nonempty (from f) && Js.lt (date s) (from f) then false
  else if Js.nonempty (to f) && Js.gt (date s) (to f) then false
  else true.

(** [sessions.filter(...)]: the ledger as the call leaves it, and the view. *)
Definition filterCall (f : Filters) (sessions : list Session)
    : list Session * list Session :=
  Js.Array_filter (keeps f) sessions.

Definition filtered (f : Filters) (sessions : list Session) : list Session :=
  snd (filterCall f sessions).

(** The five predicates, each switched off by its neutral value. *)
Definition locationOk (f : Filters) (s : Session) : Prop :=
  locFilter f = "ALL" ∨ location s = locFilter f.
Definition yearOk (f : Filters) (s : Session) : Prop :=
  yearFilter f = "ALL" ∨ Js.slice (date s) 0 4 = yearFilter f.
Definition monthOk (f : Filters) (s : Session) : Prop :=
  monthFilter f = 0 ∨ Number (Js.slice (date s) 5 7) = Some (monthFilter f).
Definition fromOk (f : Filters) (s : Session) : Prop :=
  from f = "" ∨ String.leb (from f) (date s) = true.
Definition toOk (f : Filters) (s : Session) : Prop :=
  to f = "" ∨ String.leb (date s) (to f) = true.

Definition passes (f : Filters) (s : Session) : Prop :=
  locationOk f s ∧ yearOk f s ∧ monthOk f s ∧ fromOk f s ∧ toOk f s.

(** The rows of the history list: [filtered.slice().sort(...)], with the
    comparator of [doFinish]. *)
Definition historyView `{!Js.Collation} (f : Filters)
    (sessions : list Session) : list Session :=
  Js.sort Ledger.byDateThenRecency (filtered f sessions).

End Filtered.

End History.

(** ** Export *)
Module Pdf.





Section ExportPDF.
Context (Number : string → option Z).



End ExportPDF.



End Pdf.

(** ** Offline asset cache (the service worker) *)
Module Sw.

Definition CACHE : string := "pcache-v1".

(** A cache maps request URLs to response bodies; [caches] maps cache names
    to caches. *)
Abbreviation Cache := (gmap string string).
Abbreviation CacheStorage := (gmap string Cache).

(** [caches.keys()] *)
Definition caches_keys (caches : CacheStorage) : list string :=
  (map_to_list caches).*1.

(** [caches.delete(k)] *)
Definition caches_delete (k : string) (caches : CacheStorage) : CacheStorage :=
  delete k caches.

(** One element of [keys.map(...)]:
    [k === CACHE ? null : caches.delete(k)] *)
Definition sweep (caches : CacheStorage) (k : string) : CacheStorage :=
  if bool_decide (k = CACHE) then caches else caches_delete k caches.

(** The deletions of the activate handler settled in the order [keys]. *)
Definition activateIn (keys : list string) (caches : CacheStorage)
    : CacheStorage :=
  foldl sweep caches keys.

(** The activate handler, once the promise given to [waitUntil] settles. *)
Definition activate (caches : CacheStorage) : CacheStorage :=
  activateIn (caches_keys caches) caches.

Definition ASSETS : list string :=
  ["/"; "/index.html"; "/manifest.json"; "/icon-192.png"; "/icon-512.png"].

(** What [fetch] of a URL yields: a rejection, or a response, of which the
    model keeps its body and two facts: [ok], its status is in the 200s;
    [storable], the Cache API takes it for this request (its status is not
    206, it has no [Vary: *] header, the request is an http(s) one).  A
    cached response is its body. *)
Inductive FetchResult :=
  | NetworkError
  | Response (ok storable : bool) (body : string).

Abbreviation Network := (string → FetchResult).

(** [caches.open(name)]: the cache of that name, made empty if there is
    none. *)
Definition caches_open (name : string) (caches : CacheStorage)
    : CacheStorage * Cache :=
  match caches !! name with
  | Some c => (caches, c)
  | None => (<[name := ∅]> caches, ∅)
  end.

(** [cache.addAll(urls)]: every URL is fetched; unless each fetch yields a
    response with a status in the 200s that the cache takes, the call
    rejects ([None]) and stores nothing; otherwise every response is stored
    under its URL. *)
Fixpoint addAll (net : Network) (urls : list string) (cache : Cache)
    : option Cache :=
  match urls with
  | [] => Some cache
  | url :: rest =>
      match net url with
      | Response true true body =>
          cache' ← addAll net rest cache; Some (<[url := body]> cache')
      | _ => None
      end
  end.

(** The install handler, once the promise given to [waitUntil] settles:
    whether it was fulfilled, and the caches. *)
Definition install (net : Network) (caches : CacheStorage)
    : bool * CacheStorage :=
  let '(caches1, c) := caches_open CACHE caches in
  match addAll net ASSETS c with
  | Some c' => (true, <[CACHE := c']> caches1)
  | None => (false, caches1)
  end.

(** A request, as far as the fetch handler looks at it. *)
Record Request := mkRequest {
  method : string;
  url : string;
}.

(** [caches.match(url)]: the response stored under the URL in some cache,
    if any.  When several caches hold the URL the browser takes the one
    created first; the model takes the first in the order of the map, and
    the properties below hold whichever it is. *)
Definition caches_match (u : string) (caches : CacheStorage)
    : option string :=
  head (omap (λ entry : string * Cache, entry.2 !! u) (map_to_list caches)).

(** [caches.open(CACHE).then((c) => c.put(req, copy))], once settled: the
    cache is opened, and the response is stored unless [put] rejects it. *)
Definition cachePut (u : string) (storable : bool) (body : string)
    (caches : CacheStorage) : CacheStorage :=
  let '(caches1, c) := caches_open CACHE caches in
  if storable then <[CACHE := <[u := body]> c]> caches1 else caches1.

(** What the fetch handler does with a request: it returns without
    [respondWith], or it responds ([None]: the promise resolves to
    [undefined], which the browser turns into a network error). *)
Inductive Outcome :=
  | PassThrough
  | Respond (response : option string).

(** The fetch handler, once its promises have settled. *)
Definition handleFetch (net : Network) (req : Request)
    (caches : CacheStorage) : Outcome * CacheStorage :=
  if negb (bool_decide (method req = "GET")) then (PassThrough, caches)
  else
    match caches_match (url req) caches with
    | Some cached => (Respond (Some cached), caches)
    | None =>
        match net (url req) with
        | Response _ storable body =>
            (Respond (Some body), cachePut (url req) storable body caches)
        | NetworkError =>
            (Respond (caches_match "/index.html" caches), caches)
        end
    end.

(** The response stored under a URL in the cache of a given name. *)
Definition cachedIn (name u : string) (caches : CacheStorage)
    : option string :=
  caches !! name ≫= (λ c, c !! u).

(** The network serves the URL with a status in the 200s and a response
    the cache takes. *)
Definition served (net : Network) (u : string) : Prop :=
  ∃ body, net u = Response true true body.

(** No connection: every fetch is rejected. *)
Definition offline : Network := λ _, NetworkError.

(** A network that serves every URL with status 200 and the URL as body. *)
Definition echo : Network := λ u, Response true true u.

(** A network that answers every URL with a partial response (status 206),
    which the cache does not take. *)
Definition partial : Network := λ u, Response true false u.

End Sw.

(** ** Sample data *)

(** The dates and the timestamps of a small clinic week. *)
Definition clinicTexts : list string :=
  ["2024-01-01"; "2024-01-02"; "2024-01-03";
   "2024-01-01T09:00:00.000Z"; "2024-01-01T11:00:00.000Z";
   "2024-01-02T09:00:00.000Z"; "2024-01-03T11:00:00.000Z"].

(** * Properties *)

(** ** The order of strings *)
Section StringOrder.

Lemma ascii_compare_refl (c : ascii) : Ascii.compare c c = Eq.
Proof. unfold Ascii.compare. apply N.compare_refl. Qed.

Lemma ascii_compare_lt_trans (x y z : ascii) :
  Ascii.compare x y = Lt → Ascii.compare y z = Lt → Ascii.compare x z = Lt.
Proof.
  unfold Ascii.compare. rewrite !N.compare_lt_iff. apply N.lt_trans.
Qed.

Lemma string_compare_refl (s : string) : String.compare s s = Eq.
Proof.
  induction s as [|c s IH]; simpl; [done|].
  by rewrite ascii_compare_refl.
Qed.

Lemma string_compare_not_gt_trans (a b c : string) :
  String.compare a b ≠ Gt → String.compare b c ≠ Gt →
  String.compare a c ≠ Gt.
Proof.
  revert b c. induction a as [|x a IH]; intros [|y b] [|z c]; simpl; try done.
  destruct (Ascii.compare x y) eqn:Hxy; [| |done];
    destruct (Ascii.compare y z) eqn:Hyz; try done; intros Hab Hbc.
  - apply Ascii.compare_eq_iff in Hxy as ->.
    apply Ascii.compare_eq_iff in Hyz as ->.
    rewrite ascii_compare_refl. eauto.
  - apply Ascii.compare_eq_iff in Hxy as ->. by rewrite Hyz.
  - apply Ascii.compare_eq_iff in Hyz as <-. by rewrite Hxy.
  - by rewrite (ascii_compare_lt_trans _ _ _ Hxy Hyz).
Qed.

Lemma leb_not_gt (a b : string) :
  String.leb a b = true ↔ String.compare a b ≠ Gt.
Proof. unfold String.leb. destruct (String.compare a b); naive_solver. Qed.

Lemma leb_refl (a : string) : String.leb a a = true.
Proof. apply leb_not_gt. by rewrite string_compare_refl. Qed.

Lemma leb_trans (a b c : string) :
  String.leb a b = true → String.leb b c = true → String.leb a c = true.
Proof. rewrite !leb_not_gt. apply string_compare_not_gt_trans. Qed.

Lemma ltb_false_leb (a b : string) :
  String.ltb a b = false ↔ String.leb b a = true.
Proof.
  unfold String.ltb, String.leb. rewrite (String.compare_antisym a b).
  destruct (String.compare b a); simpl; by split.
Qed.

Lemma codeCompare_nonpos (a b : string) :
  Js.codeCompare a b ≤ 0 ↔ String.leb a b = true.
Proof.
  unfold Js.codeCompare, String.leb.
  destruct (String.compare a b); split; intros; first [done | lia].
Qed.

(** The order of the character codes agrees with itself. *)
Lemma codeOrder_byCode (a b : string) : @Js.byCode Js.codeOrder a b.
Proof.
  unfold Js.byCode, Js.localeCompare, Js.codeOrder, Js.codeCompare.
  by destruct (String.compare a b).
Qed.

Lemma codeOrder_byCodeOn (P : string → Prop) : @Js.byCodeOn Js.codeOrder P.
Proof. intros a b _ _. apply codeOrder_byCode. Qed.

Lemma byCode_positive `{!Js.Collation} (a b : string) :
  Js.byCode a b →
  (0 <? Js.localeCompare a b) = (0 <? Js.codeCompare a b).
Proof.
  unfold Js.byCode. intros <-.
  destruct (Js.localeCompare a b); reflexivity.
Qed.

End StringOrder.

(** ** Sums of numbers *)
Section Numbers.

Lemma toNumber_safe (n : Z) : Js.safeInteger n → Js.toNumber n = n.
Proof.
  unfold Js.safeInteger, Js.MAX_SAFE_INTEGER, Js.toNumber. intros Hn.
  assert (Z.log2 (Z.abs n) < 53) as Hlog.
  { destruct (decide (Z.abs n = 0)) as [->|Hnz]; [done|].
    apply Z.log2_lt_pow2; lia. }
  cbn zeta. by rewrite (proj2 (Z.leb_le _ _)) by lia.
Qed.

Lemma add_exact (a b : Z) : Js.safeInteger (a + b) → Js.add a b = a + b.
Proof. apply toNumber_safe. Qed.

Lemma addsExactly_add (amount : Z) (ledger : list Session) (r : Session) :
  Ledger.addsExactly amount ledger → r ∈ ledger →
  Js.add (total r) amount = total r + amount.
Proof. intros [_ Hl] Hr. apply add_exact. by apply Hl. Qed.

End Numbers.

(** ** [sort] arranges and keeps the elements *)
Section SortFacts.
Context {A : Type} (comparefn : A → A → Z).

#[local] Abbreviation inOrder := (Js.inOrder comparefn).

Lemma insert_Permutation (x : A) (l : list A) :
  Js.insert comparefn x l ≡ₚ x :: l.
Proof.
  induction l as [|y l IH]; simpl; [done|].
  destruct (0 <? comparefn x y); [|done].
  rewrite IH. apply Permutation_swap.
Qed.

Lemma sort_Permutation (l : list A) : Js.sort comparefn l ≡ₚ l.
Proof.
  induction l as [|x l IH]; simpl; [done|].
  by rewrite insert_Permutation, IH.
Qed.

Hypothesis comparefn_total : ∀ a b, inOrder a b ∨ inOrder b a.

Lemma insert_HdRel (a x : A) (l : list A) :
  inOrder a x → HdRel inOrder a l → HdRel inOrder a (Js.insert comparefn x l).
Proof.
  intros Hax Hl. destruct l as [|y l]; simpl; [by constructor|].
  destruct (0 <? comparefn x y); constructor; [|done].
  by inversion Hl.
Qed.

Lemma insert_Sorted (x : A) (l : list A) :
  Sorted inOrder l → Sorted inOrder (Js.insert comparefn x l).
Proof.
  induction 1 as [|y l Hl IH Hy]; simpl; [by repeat constructor|].
  destruct (0 <? comparefn x y) eqn:Hxy.
  - constructor; [done|]. apply insert_HdRel; [|done].
    apply Z.ltb_lt in Hxy.
    destruct (comparefn_total y x) as [?|Hle]; [done|].
    unfold Js.inOrder in Hle. lia.
  - apply Z.ltb_ge in Hxy. constructor; [by constructor|].
    by constructor.
Qed.

Lemma sort_Sorted (l : list A) : Sorted inOrder (Js.sort comparefn l).
Proof.
  induction l as [|x l IH]; simpl; [constructor|]. by apply insert_Sorted.
Qed.

Lemma sort_Sorted_as (R : relation A) (l : list A) :
  (∀ a b, inOrder a b → R a b) → Sorted R (Js.sort comparefn l).
Proof.
  intros HR. induction (sort_Sorted l) as [|x l' _ IH Hx]; constructor;
    [done|].
  destruct Hx; constructor; auto.
Qed.

End SortFacts.

(** [sort] only looks at the sign of the comparator on the elements. *)
Section SortSigns.
Context {A : Type} (comparefn comparefn' : A → A → Z).

Lemma insert_ext (x : A) (l : list A) :
  (∀ y, y ∈ l → (0 <? comparefn x y) = (0 <? comparefn' x y)) →
  Js.insert comparefn x l = Js.insert comparefn' x l.
Proof.
  induction l as [|y l IH]; intros Hsame; simpl; [done|].
  rewrite <- (Hsame y) by (by left).
  destruct (0 <? comparefn x y); [|done].
  f_equal. apply IH. intros z Hz. apply Hsame. by right.
Qed.

Lemma sort_ext (l : list A) :
  (∀ x y, x ∈ l → y ∈ l → (0 <? comparefn x y) = (0 <? comparefn' x y)) →
  Js.sort comparefn l = Js.sort comparefn' l.
Proof.
  induction l as [|x l IH]; intros Hsame; simpl; [done|].
  rewrite IH by (intros y z Hy Hz; apply Hsame; by right).
  apply insert_ext. intros y Hy. apply Hsame; [by left|].
  right. by rewrite sort_Permutation in Hy.
Qed.

End SortSigns.

(** ** The ledger order *)
Section LedgerOrder.
Import Ledger.

(** Under the order of the character codes the comparator of the ledger
    is the display order. *)
Lemma byDateThenRecency_mayPrecede (a b : Session) :
  Js.inOrder (@byDateThenRecency Js.codeOrder) a b ↔ mayPrecede a b.
Proof.
  unfold Js.inOrder, byDateThenRecency, mayPrecede.
  unfold Js.localeCompare, Js.codeOrder.
  destruct (decide (date a = date b)) as [Hd|Hd].
  - rewrite bool_decide_eq_true_2, codeCompare_nonpos by done.
    rewrite Hd. split; [|intros [_ Hf]; by apply Hf].
    intros ?. split; [apply leb_refl|done].
  - rewrite bool_decide_eq_false_2, codeCompare_nonpos by done.
    split; [by split|by intros [? _]].
Qed.

Lemma mayPrecede_total (a b : Session) : mayPrecede a b ∨ mayPrecede b a.
Proof.
  unfold mayPrecede. destruct (decide (date a = date b)) as [Hd|Hd].
  - rewrite Hd.
    destruct (String.leb_total (finishedAt a) (finishedAt b)); [right|left];
      (split; [apply leb_refl|done]).
  - destruct (String.leb_total (date a) (date b)); [right|left];
      (split; [done|congruence]).
Qed.

#[local] Instance mayPrecede_trans : Transitive mayPrecede.
Proof.
  intros a b c [Hab Hab'] [Hbc Hbc']. split; [by eapply leb_trans|].
  intros Hac. rewrite Hac in Hab.
  assert (date b = date c) as Hbc'' by (by apply String.leb_antisym).
  eapply leb_trans; [by apply Hbc'|]. apply Hab'. congruence.
Qed.

Lemma sort_code_order (l : list Session) :
  StronglySorted mayPrecede (Js.sort (@byDateThenRecency Js.codeOrder) l).
Proof.
  apply Sorted_StronglySorted; [apply _|].
  apply sort_Sorted_as.
  - intros a b. rewrite !byDateThenRecency_mayPrecede.
    apply mayPrecede_total.
  - intros a b. apply byDateThenRecency_mayPrecede.
Qed.

Context `{!Js.Collation}.

(** On texts that [localeCompare] orders as their character codes do, the
    comparator has the sign it has under the order of the codes. *)
Lemma byDateThenRecency_byCode (P : string → Prop) (a b : Session) :
  Js.byCodeOn P →
  P (date a) → P (finishedAt a) → P (date b) → P (finishedAt b) →
  (0 <? byDateThenRecency a b) =
  (0 <? @byDateThenRecency Js.codeOrder a b).
Proof.
  intros HP Hda Hfa Hdb Hfb. unfold byDateThenRecency.
  case_bool_decide; by apply byCode_positive, HP.
Qed.

Lemma sort_byCode (P : string → Prop) (l : list Session) :
  Js.byCodeOn P → textsIn P l →
  Js.sort byDateThenRecency l = Js.sort (@byDateThenRecency Js.codeOrder) l.
Proof.
  intros HP Hl. apply sort_ext. intros a b Ha Hb.
  destruct (Hl a Ha), (Hl b Hb). by eapply byDateThenRecency_byCode.
Qed.

Lemma sort_ledger_order (P : string → Prop) (l : list Session) :
  Js.byCodeOn P → textsIn P l →
  StronglySorted mayPrecede (Js.sort byDateThenRecency l).
Proof.
  intros HP Hl. rewrite (sort_byCode P) by done. apply sort_code_order.
Qed.

Lemma textsIn_cons (P : string → Prop) (r : Session) (l : list Session) :
  textsIn P (r :: l) ↔ (P (date r) ∧ P (finishedAt r)) ∧ textsIn P l.
Proof.
  unfold textsIn. split.
  - intros Hl. split; [apply Hl; by left|]. intros r' Hr'. apply Hl. by right.
  - intros [Hr Hl] r' [->|Hr']%elem_of_cons; auto.
Qed.

Lemma textsIn_Permutation (P : string → Prop) (l l' : list Session) :
  l ≡ₚ l' → textsIn P l → textsIn P l'.
Proof. intros Hp Hl r Hr. apply Hl. by rewrite Hp. Qed.

Lemma textsIn_insert (P : string → Prop) (i : nat) (r : Session)
    (l : list Session) :
  P (date r) → P (finishedAt r) → textsIn P l → textsIn P (<[i := r]> l).
Proof.
  intros Hd Hf Hl r' Hr'.
  apply list_elem_of_lookup in Hr' as [j Hj].
  destruct (decide (i = j)) as [->|Hij].
  - destruct (decide (j < List.length l)%nat).
    + rewrite list_lookup_insert_eq in Hj by done. by inversion Hj; subst.
    + rewrite list_insert_ge in Hj by lia.
      apply Hl. by eapply list_elem_of_lookup_2.
  - rewrite list_lookup_insert_ne in Hj by done.
    apply Hl. by eapply list_elem_of_lookup_2.
Qed.

(** The records [mergeOrAppend] sorts carry texts of the class when the
    ledger, the date and the timestamp do. *)
Lemma mergeOrAppend_texts (P : string → Prop) (d l : string) (amount : Z)
    (ts uuid : string) (prev : list Session) :
  textsIn P prev → P d → P ts →
  textsIn P (mergeOrAppend d l amount ts uuid prev).
Proof.
  intros Hprev Hd Hts. unfold mergeOrAppend.
  destruct (Js.findIndex (sameSlot d l) prev) as [[idx r]|] eqn:Hfind.
  - eapply textsIn_Permutation; [symmetry; apply sort_Permutation|].
    apply list_find_Some in Hfind as (Hidx & _ & _).
    apply textsIn_insert; [|done..].
    simpl. apply (Hprev r). by eapply list_elem_of_lookup_2.
  - eapply textsIn_Permutation; [symmetry; apply sort_Permutation|].
    by apply textsIn_cons.
Qed.

Lemma mergeOrAppend_ledger_order (P : string → Prop) (d l : string)
    (amount : Z) (ts uuid : string) (prev : list Session) :
  Js.byCodeOn P → textsIn P prev → P d → P ts →
  StronglySorted mayPrecede (mergeOrAppend d l amount ts uuid prev).
Proof.
  intros HP Hprev Hd Hts.
  pose proof (mergeOrAppend_texts P d l amount ts uuid prev Hprev Hd Hts)
    as Hnext.
  unfold mergeOrAppend in *.
  destruct (Js.findIndex (sameSlot d l) prev) as [[idx r]|] eqn:Hfind.
  - apply (sort_ledger_order P); [done|].
    eapply textsIn_Permutation; [apply sort_Permutation|done].
  - apply (sort_ledger_order P); [done|].
    eapply textsIn_Permutation; [apply sort_Permutation|done].
Qed.

Lemma mergeOrAppend_slots (d l : string) (amount : Z) (ts uuid : string)
    (prev : list Session) :
  slot <$> mergeOrAppend d l amount ts uuid prev ≡ₚ
    match Js.findIndex (sameSlot d l) prev with
    | Some _ => slot <$> prev
    | None => (d, l) :: (slot <$> prev)
    end.
Proof.
  unfold mergeOrAppend.
  destruct (Js.findIndex (sameSlot d l) prev) as [[idx r]|] eqn:Hfind.
  - rewrite sort_Permutation, list_fmap_insert.
    apply list_find_Some in Hfind as (Hidx & _ & _).
    rewrite list_insert_id; [done|].
    by rewrite list_lookup_fmap, Hidx.
  - by rewrite sort_Permutation.
Qed.

Lemma mergeOrAppend_uniqueSlots (d l : string) (amount : Z)
    (ts uuid : string) (prev : list Session) :
  uniqueSlots prev → uniqueSlots (mergeOrAppend d l amount ts uuid prev).
Proof.
  unfold uniqueSlots. intros Hprev. rewrite mergeOrAppend_slots.
  destruct (Js.findIndex (sameSlot d l) prev) as [[idx r]|] eqn:Hfind;
    [done|].
  apply NoDup_cons. split; [|done].
  apply list_find_None in Hfind. rewrite Forall_forall in Hfind.
  intros (r & Hr & Hin)%list_elem_of_fmap.
  apply (Hfind r Hin). unfold sameSlot, slot in *. naive_solver.
Qed.

End LedgerOrder.

(** ** Finishing a session *)
Section Finish.
Import Ledger App.
Context `{!Js.Collation}.

Lemma truthy_Some (v : option string) :
  Js.truthy v = true → ∃ s, v = Some s.
Proof. destruct v; [eauto|done]. Qed.

(** A refused finish only closes the dialog. *)
Lemma doFinish_refused (ts uuid : string) (st : State) :
  finishRefused (current st) = true →
  doFinish ts uuid st = setShowFinish false st.
Proof. unfold doFinish. by intros ->. Qed.

(** An accepted finish merges the total into the ledger and resets the
    counters and the lock. *)
Lemma doFinish_accepted (ts uuid : string) (st : State) :
  finishRefused (current st) = false →
  ∃ d l,
    cur_date (current st) = Some d ∧ cur_location (current st) = Some l ∧
    doFinish ts uuid st =
      mkState
        (mergeOrAppend d l (totalOf (current st)) ts uuid (sessions st))
        (mkCurrent (Some d) (Some l) 0 0 false) false.
Proof.
  unfold doFinish. intros Hg. rewrite Hg.
  unfold finishRefused in Hg.
  apply orb_false_elim in Hg as [Hg Hl].
  apply orb_false_elim in Hg as [_ Hd].
  apply negb_false_iff, truthy_Some in Hd as [d Hd].
  apply negb_false_iff, truthy_Some in Hl as [l Hl].
  exists d, l. rewrite Hd, Hl. split_and!; [done..|].
  unfold setShowFinish, setCurrent, setSessions. simpl. by rewrite Hd, Hl.
Qed.

Lemma finishRefused_zero (c : CurrentState) :
  totalOf c = 0 → finishRefused c = true.
Proof.
  intros Hzero. unfold finishRefused. by rewrite bool_decide_eq_true_2.
Qed.

Lemma finishRefused_unselected (c : CurrentState) :
  Js.truthy (cur_date c) = false ∨ Js.truthy (cur_location c) = false →
  finishRefused c = true.
Proof.
  unfold finishRefused. intros [-> | ->]; simpl;
    by rewrite ?orb_true_r.
Qed.

Lemma finishRefused_false (c : CurrentState) :
  0 < totalOf c → Js.truthy (cur_date c) = true →
  Js.truthy (cur_location c) = true → finishRefused c = false.
Proof.
  intros Ht Hd Hl. unfold finishRefused.
  rewrite Hd, Hl, bool_decide_eq_false_2; [done|lia].
Qed.

Lemma step_sessions (st : State) (e : Event) :
  sessions (step st e) = sessions st ∨
  ∃ d l amount ts uuid,
    sessions (step st e) = mergeOrAppend d l amount ts uuid (sessions st).
Proof.
  destruct e as [k|k|k|v|v| | |ts uuid]; simpl;
    unfold onInc, onDec, onReset, changeDate, changeLocation;
    repeat case_match; auto.
  destruct (finishRefused (current st)) eqn:Hg.
  - left. by rewrite doFinish_refused.
  - right. destruct (doFinish_accepted ts uuid st Hg) as (d & l & _ & _ & ->).
    simpl. eauto 10.
Qed.

End Finish.

(** C1: a finish keeps the ledger's keys unique.  If no two records of the
    ledger share a (date, location) pair, none do after [mergeOrAppend], nor
    after any event of the application, [doFinish] among them; and on the
    empty ledger, finishing 5 and then 3 for 2024-01-01 at Dhaka leaves one
    record, with the first identifier, total 8 and the second timestamp. *)
Theorem finish_keeps_slots_unique `{!Js.Collation} :
  (∀ d l amount ts uuid prev,
     Ledger.uniqueSlots prev →
     Ledger.uniqueSlots (Ledger.mergeOrAppend d l amount ts uuid prev)) ∧
  (∀ st e,
     Ledger.uniqueSlots (App.sessions st) →
     Ledger.uniqueSlots (App.sessions (App.step st e))) ∧
  (∀ ts1 uuid1 ts2 uuid2,
     Ledger.mergeOrAppend "2024-01-01" "Dhaka" 3 ts2 uuid2
       (Ledger.mergeOrAppend "2024-01-01" "Dhaka" 5 ts1 uuid1 [])
     = [mkSession uuid1 "2024-01-01" "Dhaka" 8 ts2]).
Proof.
  split_and!.
  - apply mergeOrAppend_uniqueSlots.
  - intros st e Hst.
    destruct (step_sessions st e) as [->|(d & l & a & ts & uuid & ->)];
      [done|].
    by apply mergeOrAppend_uniqueSlots.
  - intros. reflexivity.
Qed.

(** C1, at a ledger of two records: a second finish at the first slot. *)
Lemma finish_keeps_slots_unique_witness :
  let collation : Js.Collation := Js.alphabetical in
  let prev :=
    [mkSession "a" "2024-01-02" "Dhaka" 4 "2024-01-02T09:00:00.000Z";
     mkSession "b" "2024-01-01" "Barisal" 7 "2024-01-01T09:00:00.000Z"] in
  Ledger.uniqueSlots prev ∧
  Ledger.uniqueSlots
    (Ledger.mergeOrAppend "2024-01-02" "Dhaka" 2 "2024-01-02T11:00:00.000Z"
       "c" prev).
Proof.
  assert (Ledger.uniqueSlots
    [mkSession "a" "2024-01-02" "Dhaka" 4 "2024-01-02T09:00:00.000Z";
     mkSession "b" "2024-01-01" "Barisal" 7 "2024-01-01T09:00:00.000Z"])
    as Hprev.
  { unfold Ledger.uniqueSlots. apply (bool_decide_unpack _). vm_compute.
    exact I. }
  intros collation. split; [exact Hprev|].
  exact (proj1 finish_keeps_slots_unique _ _ _ _ _ _ Hprev).
Defined.

(** C2: after a finish the ledger is in display order, on dates and
    timestamps that [localeCompare] orders as their character codes do.  For
    a class of such texts, a ledger whose dates and [finishedAt] stamps are in
    it and a finish whose date and timestamp are, in the merge branch as in
    the append branch every record of the result stands before the records
    with a smaller date (strings compared lexicographically) and, among those
    of its own date, before the ones with a smaller [finishedAt]; the result
    holds the merged or the extended list, whatever the texts; and on the
    empty ledger, finishing for 2024-01-01 and then for 2024-01-02 at Dhaka
    leaves two records, 2024-01-02 first. *)
Theorem finish_sorts_ledger `{!Js.Collation} (P : string → Prop) :
  Js.byCodeOn P →
  (∀ d l amount ts uuid prev,
     Ledger.textsIn P prev → P d → P ts →
     StronglySorted Ledger.mayPrecede
       (Ledger.mergeOrAppend d l amount ts uuid prev)) ∧
  (∀ d l amount ts uuid prev idx r,
     Js.findIndex (Ledger.sameSlot d l) prev = Some (idx, r) →
     Ledger.mergeOrAppend d l amount ts uuid prev ≡ₚ
       <[idx := mkSession (sessionId r) d l (Js.add (total r) amount) ts]>
         prev) ∧
  (∀ d l amount ts uuid prev,
     Js.findIndex (Ledger.sameSlot d l) prev = None →
     Ledger.mergeOrAppend d l amount ts uuid prev ≡ₚ
       mkSession uuid d l amount ts :: prev) ∧
  (∀ ts uuid st,
     App.finishRefused (App.current st) = false →
     Ledger.textsIn P (App.sessions st) →
     (∀ d, cur_date (App.current st) = Some d → P d) → P ts →
     StronglySorted Ledger.mayPrecede
       (App.sessions (App.doFinish ts uuid st))) ∧
  (∀ ts1 uuid1 ts2 uuid2,
     P "2024-01-01" → P "2024-01-02" →
     Ledger.mergeOrAppend "2024-01-02" "Dhaka" 3 ts2 uuid2
       (Ledger.mergeOrAppend "2024-01-01" "Dhaka" 5 ts1 uuid1 [])
     = [mkSession uuid2 "2024-01-02" "Dhaka" 3 ts2;
        mkSession uuid1 "2024-01-01" "Dhaka" 5 ts1]).
Proof.
  intros HP. split_and!.
  - intros. by apply (mergeOrAppend_ledger_order P).
  - intros * Hfind. unfold Ledger.mergeOrAppend. rewrite Hfind.
    apply list_find_Some in Hfind as (_ & [<- <-] & _).
    apply sort_Permutation.
  - intros * Hfind. unfold Ledger.mergeOrAppend. rewrite Hfind.
    apply sort_Permutation.
  - intros ts uuid st Hg Hst Hd Hts.
    destruct (doFinish_accepted ts uuid st Hg) as (d & l & Hcur & _ & ->).
    simpl. apply (mergeOrAppend_ledger_order P); auto.
  - intros ts1 uuid1 ts2 uuid2 H1 H2.
    cbv [Ledger.mergeOrAppend Js.findIndex list_find Js.sort Js.insert
         foldr fmap option_fmap option_map].
    rewrite decide_False by (intros [[=] _]).
    cbv [Ledger.byDateThenRecency date finishedAt].
    rewrite bool_decide_eq_false_2 by done.
    rewrite (byCode_positive _ _ (HP _ _ H1 H2)). reflexivity.
Qed.

Lemma alphabetical_clinicTexts :
  @Js.byCodeOn Js.alphabetical (λ s, s ∈ clinicTexts).
Proof.
  assert (Forall (λ a, Forall (λ b, @Js.byCode Js.alphabetical a b)
                         clinicTexts) clinicTexts) as Hall.
  { repeat (apply Forall_cons; split); try apply Forall_nil;
      vm_compute; reflexivity. }
  intros a b Ha Hb. rewrite Forall_forall in Hall.
  specialize (Hall a Ha). rewrite Forall_forall in Hall. by apply Hall.
Qed.

(** C2, under an alphabetical collation, at a ledger of two records: one
    finish that merges and one that appends. *)
Lemma finish_sorts_ledger_witness :
  let collation : Js.Collation := Js.alphabetical in
  let P := λ s, s ∈ clinicTexts in
  let a := mkSession "a" "2024-01-02" "Dhaka" 4 "2024-01-02T09:00:00.000Z" in
  let b := mkSession "b" "2024-01-01" "Barisal" 7 "2024-01-01T09:00:00.000Z" in
  let st := App.mkState [a; b]
              (mkCurrent (Some "2024-01-01") (Some "Barisal") 2 1 true) true in
  Js.byCodeOn P
  ∧ ((Ledger.textsIn P [a; b] ∧ P "2024-01-03"
      ∧ P "2024-01-03T11:00:00.000Z")
     ∧ StronglySorted Ledger.mayPrecede
         (Ledger.mergeOrAppend "2024-01-03" "Dhaka" 3
            "2024-01-03T11:00:00.000Z" "c" [a; b]))
  ∧ (Js.findIndex (Ledger.sameSlot "2024-01-01" "Barisal") [a; b]
       = Some (1%nat, b)
     ∧ Ledger.mergeOrAppend "2024-01-01" "Barisal" 3
         "2024-01-01T11:00:00.000Z" "c" [a; b] ≡ₚ
       [a; mkSession "b" "2024-01-01" "Barisal" 10
             "2024-01-01T11:00:00.000Z"])
  ∧ (Js.findIndex (Ledger.sameSlot "2024-01-03" "Dhaka") [a; b] = None
     ∧ Ledger.mergeOrAppend "2024-01-03" "Dhaka" 3
         "2024-01-03T11:00:00.000Z" "c" [a; b] ≡ₚ
       mkSession "c" "2024-01-03" "Dhaka" 3 "2024-01-03T11:00:00.000Z"
         :: [a; b])
  ∧ (App.finishRefused (App.current st) = false
     ∧ StronglySorted Ledger.mayPrecede
         (App.sessions (App.doFinish "2024-01-01T11:00:00.000Z" "c" st))).
Proof.
  intros collation P a b st.
  assert (∀ s, bool_decide (s ∈ clinicTexts) = true → P s) as Hin
    by (intros s Hs; by apply bool_decide_eq_true_1 in Hs).
  assert (Ledger.textsIn P [a; b]) as Hprev.
  { intros r Hr. assert (r = a ∨ r = b) as [-> | ->] by set_solver.
    - split; by apply Hin.
    - split; by apply Hin. }
  destruct (finish_sorts_ledger P alphabetical_clinicTexts)
    as (Hsorted & Hmerge & Happend & Hfinish & _).
  split_and!.
  - exact alphabetical_clinicTexts.
  - exact Hprev.
  - by apply Hin.
  - by apply Hin.
  - apply Hsorted; [exact Hprev|by apply Hin..].
  - reflexivity.
  - exact (Hmerge "2024-01-01" "Barisal" 3 "2024-01-01T11:00:00.000Z" "c"
             [a; b] 1%nat b eq_refl).
  - reflexivity.
  - exact (Happend "2024-01-03" "Dhaka" 3 "2024-01-03T11:00:00.000Z" "c"
             [a; b] eq_refl).
  - reflexivity.
  - apply (Hfinish "2024-01-01T11:00:00.000Z" "c" st eq_refl Hprev).
    + intros d [= <-]. by apply Hin.
    + by apply Hin.
Defined.

(** C2, without the condition on the texts: in a collation that puts [a]
    before [B], as those of the browsers do, a finish for the date [B] on a
    ledger with a record for the date [a] leaves [B] first, which is not the
    lexicographic order: there [B] is the smaller of the two. *)
Lemma finish_sorts_as_localeCompare_does :
  let collation : Js.Collation := Js.alphabetical in
  let prev := [mkSession "1" "a" "Dhaka" 1 "2024-01-01T09:00:00.000Z"] in
  let next := Ledger.mergeOrAppend "B" "Dhaka" 1 "2024-01-01T11:00:00.000Z"
                "2" prev in
  Js.localeCompare "a" "B" = -1
  ∧ String.ltb "B" "a" = true
  ∧ next = [mkSession "2" "B" "Dhaka" 1 "2024-01-01T11:00:00.000Z";
            mkSession "1" "a" "Dhaka" 1 "2024-01-01T09:00:00.000Z"]
  ∧ ¬ StronglySorted Ledger.mayPrecede next.
Proof.
  intros collation prev next. split_and!; [reflexivity..|].
  intros Hsorted. change next with
    [mkSession "2" "B" "Dhaka" 1 "2024-01-01T11:00:00.000Z";
     mkSession "1" "a" "Dhaka" 1 "2024-01-01T09:00:00.000Z"] in Hsorted.
  apply StronglySorted_inv in Hsorted as [_ Hhd].
  apply Forall_inv in Hhd. by destruct Hhd as [Hle _].
Qed.

(** ** The current-session state *)
Section Current.
Import App.
Context `{!Js.Collation}.

Lemma clamp_range (v : Z) : 0 ≤ clamp v 0 99 ≤ 99.
Proof. unfold clamp, Js.Math_max, Js.Math_min. lia. Qed.

Lemma clamp_succ_pos (v : Z) : 0 ≤ v → 0 < clamp (v + 1) 0 99.
Proof. unfold clamp, Js.Math_max, Js.Math_min. lia. Qed.

Lemma clamp_pred_le (v : Z) : 0 ≤ v → clamp (v - 1) 0 99 ≤ v.
Proof. unfold clamp, Js.Math_max, Js.Math_min. lia. Qed.

Lemma run_invariant (P : State → Prop) :
  (∀ st e, P st → P (step st e)) → ∀ es st, P st → P (run st es).
Proof.
  intros Hstep es. unfold run.
  induction es as [|e es IH]; intros st Hst; simpl; auto.
Qed.

Lemma run_app (st : State) (es1 es2 : list Event) :
  run st (es1 ++ es2) = run (run st es1) es2.
Proof. apply foldl_app. Qed.

(** What a step does to the current-session state, handler by handler. *)
Ltac step_cases st e :=
  destruct st as [ledger [d l n o lk] sf];
  destruct e as [[|]|[|]|[|]|v|v| | |ts uuid]; simpl;
  unfold onInc, onDec, onReset, changeDate, changeLocation, doFinish,
    counterEnabled, canStart, setCurrent, setShowFinish, setSessions; simpl;
  repeat (case_match; simpl; try done).

Lemma step_countersInRange (st : State) (e : Event) :
  countersInRange (current st) → countersInRange (current (step st e)).
Proof.
  unfold countersInRange. step_cases st e; intros [??]; simplify_eq/=;
    try (pose proof (clamp_range (n + 1)));
    try (pose proof (clamp_range (n - 1)));
    try (pose proof (clamp_range (o + 1)));
    try (pose proof (clamp_range (o - 1))); lia.
Qed.

Lemma step_latched (st : State) (e : Event) :
  latched (current st) → latched (current (step st e)).
Proof.
  unfold latched, totalOf. step_cases st e; intros (? & ? & Hl);
    simplify_eq/=;
    try (pose proof (clamp_range (n + 1)); pose proof (clamp_succ_pos n));
    try (pose proof (clamp_range (n - 1)); pose proof (clamp_pred_le n));
    try (pose proof (clamp_range (o + 1)); pose proof (clamp_succ_pos o));
    try (pose proof (clamp_range (o - 1)); pose proof (clamp_pred_le o));
    split_and!; try lia; intros;
    rewrite ?orb_true_iff, ?Z.ltb_lt; try (by auto); try lia;
    try (destruct lk; [by auto|]; right + (left; right); lia);
    try (apply Hl; lia).
Qed.

Lemma step_locked (st : State) (e : Event) :
  ¬ successfulFinish st e → locked (current st) = true →
  locked (current (step st e)) = true.
Proof.
  intros Hns Hlk. destruct e as [k|k|k|v|v| | |ts uuid]; simpl;
    [| | | | | | |simpl in Hns; apply not_false_is_true in Hns;
                   by rewrite doFinish_refused];
    unfold onInc, onDec, onReset, changeDate, changeLocation, setCurrent,
      setShowFinish; try done.
  - case_match; [done|]. destruct k; simpl; by rewrite Hlk.
  - case_match; [done|]. destruct k; simpl; by rewrite Hlk.
  - case_match; [done|]. by destruct k.
  - by rewrite Hlk.
  - by rewrite Hlk.
Qed.

End Current.

(** C3: the counters stay within 0 and 99.  From any state whose two
    counters are zero (the state a device starts in, with any date and
    location selected or none), after every sequence of events (increments,
    decrements, resets, selections and finishes), [newCount] and [oldCount]
    both lie in [0, 99]; as the sequence is arbitrary, this holds after each
    of its steps. *)
Theorem counters_stay_in_range `{!Js.Collation} (ledger : list Session)
    (d l : option string) (lk sf : bool) (es : list App.Event) :
  App.countersInRange
    (App.current
       (App.run (App.mkState ledger (mkCurrent d l 0 0 lk) sf) es)).
Proof.
  apply (run_invariant (λ st, App.countersInRange (App.current st))).
  - apply step_countersInRange.
  - unfold App.countersInRange. simpl. lia.
Qed.

(** C4: the lock is a latch.  In every state reached from a fresh state
    (counters zero), a positive total comes with [locked]; and no event but a
    finish that passes the guard of [doFinish] takes [locked] from true to
    false: not an increment, a decrement, a reset, a change of date or of
    location, nor a refused finish. *)
Theorem locked_is_a_latch `{!Js.Collation} :
  (∀ ledger d l lk sf es,
     let st := App.run (App.mkState ledger (mkCurrent d l 0 0 lk) sf) es in
     0 < App.totalOf (App.current st) → locked (App.current st) = true) ∧
  (∀ st e,
     ¬ App.successfulFinish st e →
     locked (App.current st) = true →
     locked (App.current (App.step st e)) = true).
Proof.
  split.
  - intros ledger d l lk sf es.
    apply (run_invariant (λ st, App.latched (App.current st))).
    + apply step_latched.
    + unfold App.latched, App.totalOf. simpl. split_and!; [lia..|lia].
  - apply step_locked.
Qed.

(** C4, on a device where Dhaka is selected: two increments and a decrement
    leave a total of one under the lock, and a reset then keeps the lock. *)
Lemma locked_is_a_latch_witness :
  let collation : Js.Collation := Js.alphabetical in
  let st :=
    App.run
      (App.mkState [] (mkCurrent (Some "2024-01-01") (Some "Dhaka") 0 0 false)
         false)
      [App.Inc App.NewCount; App.Inc App.OldCount; App.Dec App.NewCount] in
  (0 < App.totalOf (App.current st) ∧ locked (App.current st) = true) ∧
  (¬ App.successfulFinish st (App.Reset App.OldCount) ∧
   locked (App.current st) = true ∧
   locked (App.current (App.step st (App.Reset App.OldCount))) = true).
Proof.
  intros collation.
  intros st.
  assert (0 < App.totalOf (App.current st)) as Hpos by (vm_compute; done).
  assert (¬ App.successfulFinish st (App.Reset App.OldCount)) as Hnf
    by (simpl; tauto).
  assert (locked (App.current st) = true) as Hlk by reflexivity.
  split; [split; [exact Hpos|]|split_and!; [exact Hnf|exact Hlk|]].
  - exact (proj1 locked_is_a_latch [] (Some "2024-01-01") (Some "Dhaka")
             false false _ Hpos).
  - exact (proj2 locked_is_a_latch st _ Hnf Hlk).
Defined.

(** C5: a finish with a total of zero changes neither the ledger nor the
    current-session state, so [locked] stays as it was, set or not; it only
    closes the dialog. *)
Theorem finish_with_zero_total `{!Js.Collation} (ts uuid : string)
    (st : App.State) :
  App.totalOf (App.current st) = 0 →
  App.sessions (App.doFinish ts uuid st) = App.sessions st ∧
  locked (App.current (App.doFinish ts uuid st)) = locked (App.current st) ∧
  App.current (App.doFinish ts uuid st) = App.current st ∧
  App.showFinish (App.doFinish ts uuid st) = false.
Proof.
  intros Hz. by rewrite doFinish_refused by by apply finishRefused_zero.
Qed.

(** C5, on a locked state whose counters are back at zero. *)
Lemma finish_with_zero_total_witness :
  let collation : Js.Collation := Js.alphabetical in
  let st :=
    App.mkState
      [mkSession "a" "2024-01-01" "Dhaka" 4 "2024-01-01T09:00:00.000Z"]
      (mkCurrent (Some "2024-01-01") (Some "Dhaka") 0 0 true) true in
  App.totalOf (App.current st) = 0 ∧
  App.sessions (App.doFinish "2024-01-01T11:00:00.000Z" "b" st)
    = App.sessions st ∧
  locked (App.current (App.doFinish "2024-01-01T11:00:00.000Z" "b" st)) = true.
Proof.
  intros collation.
  intros st.
  pose proof (finish_with_zero_total "2024-01-01T11:00:00.000Z" "b" st
                eq_refl) as (Hs & Hl & _).
  split_and!; [reflexivity|exact Hs|exact Hl].
Defined.

(** C6: a finish with a positive total and both a date and a location
    selected sets [newCount] and [oldCount] to zero and [locked] to false and
    leaves the date and the location of the current session as they were. *)
Theorem finish_resets_counters `{!Js.Collation} (ts uuid : string)
    (st : App.State) :
  0 < App.totalOf (App.current st) →
  Js.truthy (cur_date (App.current st)) = true →
  Js.truthy (cur_location (App.current st)) = true →
  let c := App.current (App.doFinish ts uuid st) in
  newCount c = 0 ∧ oldCount c = 0 ∧ locked c = false ∧
  cur_date c = cur_date (App.current st) ∧
  cur_location c = cur_location (App.current st).
Proof.
  intros Ht Hd Hl.
  destruct (doFinish_accepted ts uuid st) as (d & l & -> & -> & ->);
    [by apply finishRefused_false|done].
Qed.

(** C6, on a session of three patients at Dhaka. *)
Lemma finish_resets_counters_witness :
  let collation : Js.Collation := Js.alphabetical in
  let st :=
    App.mkState []
      (mkCurrent (Some "2024-01-01") (Some "Dhaka") 2 1 true) true in
  let c := App.current (App.doFinish "2024-01-01T11:00:00.000Z" "a" st) in
  newCount c = 0 ∧ oldCount c = 0 ∧ locked c = false ∧
  cur_date c = Some "2024-01-01" ∧ cur_location c = Some "Dhaka".
Proof.
  intros collation.
  intros st.
  exact (finish_resets_counters "2024-01-01T11:00:00.000Z" "a" st
           eq_refl eq_refl eq_refl).
Defined.

(** C10: a finish with a positive total but no date or no location selected
    (null, or the empty text) changes nothing but the dialog: the ledger and
    the whole current-session state, counters and lock included, stay as
    they were. *)
Theorem finish_without_selection `{!Js.Collation} (ts uuid : string)
    (st : App.State) :
  0 < App.totalOf (App.current st) →
  Js.truthy (cur_date (App.current st)) = false ∨
  Js.truthy (cur_location (App.current st)) = false →
  App.sessions (App.doFinish ts uuid st) = App.sessions st ∧
  App.current (App.doFinish ts uuid st) = App.current st ∧
  App.showFinish (App.doFinish ts uuid st) = false.
Proof.
  intros _ Hsel.
  by rewrite doFinish_refused by by apply finishRefused_unselected.
Qed.

(** C10, on a stored state with counts but no location. *)
Lemma finish_without_selection_witness :
  let collation : Js.Collation := Js.alphabetical in
  let st :=
    App.mkState
      [mkSession "a" "2024-01-01" "Dhaka" 4 "2024-01-01T09:00:00.000Z"]
      (mkCurrent (Some "2024-01-01") None 2 1 true) true in
  App.sessions (App.doFinish "2024-01-01T11:00:00.000Z" "b" st)
    = App.sessions st ∧
  App.current (App.doFinish "2024-01-01T11:00:00.000Z" "b" st)
    = App.current st ∧
  App.showFinish (App.doFinish "2024-01-01T11:00:00.000Z" "b" st) = false.
Proof.
  intros collation.
  intros st.
  refine (finish_without_selection "2024-01-01T11:00:00.000Z" "b" st _ _).
  - reflexivity.
  - right. reflexivity.
Defined.

(** ** The local store adapter *)
Section StoreFacts.
Import Store.
Context {T : Type} (read : string → option T).

Lemma stored_Some (key : string) (ls : LocalStorage) (v : T) :
  stored read key ls = Some v ↔
  reachable ls = true ∧
  ∃ raw, items ls !! key = Some raw ∧ raw ≠ "" ∧ read raw = Some v.
Proof.
  unfold stored, Js.nonempty. destruct (reachable ls); [|naive_solver].
  destruct (items ls !! key) as [raw|]; [|naive_solver].
  case_bool_decide; simpl; naive_solver.
Qed.

Lemma load_body (key : string) (fallback : T) (ls : LocalStorage) :
  try_catch
    (raw ← getItem ls key;
     match raw with
     | Some r => if Js.nonempty r then JSON_parse read r else Normal fallback
     | None => Normal fallback
     end)
    (Normal fallback)
  = Normal (default fallback (stored read key ls)).
Proof.
  unfold stored, getItem, JSON_parse. destruct (reachable ls); simpl; [|done].
  destruct (items ls !! key) as [raw|]; simpl; [|done].
  destruct (Js.nonempty raw); simpl; [|done].
  by destruct (read raw).
Qed.

End StoreFacts.

Section LocationsFacts.
Import Store.

Lemma fiveSlots_length (arr : list string) :
  List.length (fiveSlots arr) = 5%nat.
Proof.
  unfold fiveSlots. cbn zeta.
  rewrite length_take, length_app, length_fmap, length_seq. lia.
Qed.

Lemma fiveSlots_id (arr : list string) :
  List.length arr = 5%nat → fiveSlots arr = arr.
Proof.
  intros Hlen. unfold fiveSlots. cbn zeta. rewrite Hlen. simpl.
  rewrite app_nil_r. apply take_ge. lia.
Qed.

Lemma loadLocations_body (read : string → option (list string))
    (ls : LocalStorage) :
  loadLocations read ls
  = Normal (default DEFAULT_LOCATIONS
              (fiveSlots <$> stored read LOCATIONS_KEY ls)).
Proof.
  unfold loadLocations, stored, getItem, JSON_parse.
  destruct (reachable ls); simpl; [|done].
  destruct (items ls !! LOCATIONS_KEY) as [raw|]; simpl; [|done].
  destruct (Js.nonempty raw); simpl; [|done].
  by destruct (read raw).
Qed.

Lemma setItem_cases (key value : string) (ls : LocalStorage) :
  setItem ls key value
  = if writable key value ls then Normal (written key value ls)
    else Throw (refusal ls).
Proof.
  unfold setItem, writable, written, refusal.
  destruct (reachable ls); simpl; [|done].
  by destruct (accepts ls key value).
Qed.

End LocationsFacts.

(** C7, as the code is meant: a load never throws.  [loadSessions] and
    [loadCurrent] return the stored text parsed when the store can be read,
    holds a non-empty text under the key and the text is well formed, and
    their default otherwise (no ledger; today's date, no location, zero
    counts, unlocked).  [loadLocations] does the same with the five default
    labels, except that it fits the parsed list to five entries: placeholder
    labels are appended to a shorter one, a longer one is cut.  A save writes
    the serialised value ([saveLocations]: of the first five labels) under
    its key when the store takes the write. *)
Theorem load_defaults_and_save_writes
    (parseSessions : string → option (list Session))
    (stringifySessions : list Session → string)
    (parseCurrent : string → option CurrentState)
    (stringifyCurrent : CurrentState → string)
    (parseLocations : string → option (list string))
    (stringifyLocations : list string → string) :
  (∀ ls,
     Store.loadSessions parseSessions ls
     = Store.Normal
         (default [] (Store.stored parseSessions Store.SESSIONS_KEY ls))) ∧
  (∀ today ls,
     Store.loadCurrent parseCurrent today ls
     = Store.Normal
         (default (App.freshCurrent today)
            (Store.stored parseCurrent Store.CURRENT_KEY ls))) ∧
  (∀ ls,
     Store.loadLocations parseLocations ls
     = Store.Normal
         (default Store.DEFAULT_LOCATIONS
            (Store.fiveSlots
               <$> Store.stored parseLocations Store.LOCATIONS_KEY ls))) ∧
  (∀ arr,
     List.length (Store.fiveSlots arr) = 5%nat ∧
     (List.length arr = 5%nat → Store.fiveSlots arr = arr)) ∧
  (∀ (T : Type) (read : string → option T) key ls v,
     Store.stored read key ls = Some v ↔
     Store.reachable ls = true ∧
     ∃ raw, Store.items ls !! key = Some raw ∧ raw ≠ "" ∧ read raw = Some v) ∧
  (∀ list ls,
     let text := stringifySessions list in
     Store.writable Store.SESSIONS_KEY text ls = true →
     Store.saveSessions stringifySessions list ls
     = Store.Normal (Store.written Store.SESSIONS_KEY text ls)) ∧
  (∀ s ls,
     let text := stringifyCurrent s in
     Store.writable Store.CURRENT_KEY text ls = true →
     Store.saveCurrent stringifyCurrent s ls
     = Store.Normal (Store.written Store.CURRENT_KEY text ls)) ∧
  (∀ names ls,
     let text := stringifyLocations (take 5 names) in
     Store.writable Store.LOCATIONS_KEY text ls = true →
     Store.saveLocations stringifyLocations names ls
     = Store.Normal (Store.written Store.LOCATIONS_KEY text ls)).
Proof.
  split_and!.
  - intros ls. apply load_body.
  - intros today ls. apply load_body.
  - intros ls. apply loadLocations_body.
  - intros arr. split; [apply fiveSlots_length|apply fiveSlots_id].
  - intros T read key ls v. apply stored_Some.
  - intros list ls text Hw. subst text. unfold Store.saveSessions.
    by rewrite setItem_cases, Hw.
  - intros s ls text Hw. subst text. unfold Store.saveCurrent.
    by rewrite setItem_cases, Hw.
  - intros names ls text Hw. subst text. unfold Store.saveLocations.
    by rewrite setItem_cases, Hw.
Qed.

(** C7, against the claim as it stands.  A load need not return the parsed
    value: over a stored list of one location, [loadLocations] returns five.
    And a save can throw: on a store that cannot be reached every
    [saveSessions] ends in [SecurityError], and on a full one every
    [saveCurrent] ends in [QuotaExceededError]. *)
Lemma load_fits_five_slots_and_save_can_throw :
  (Store.stored Store.parseOneLocation Store.LOCATIONS_KEY
     Store.oneLocationStore = Some ["Dhaka"] ∧
   Store.loadLocations Store.parseOneLocation Store.oneLocationStore
   = Store.Normal ["Dhaka"; "Clinic B"; "Clinic C"; "Clinic D"; "Clinic E"]) ∧
  (∀ stringify list,
     Store.saveSessions stringify list Store.sealed
     = Store.Throw Store.SecurityError) ∧
  (∀ stringify s,
     Store.saveCurrent stringify s Store.full
     = Store.Throw Store.QuotaExceededError) ∧
  ¬ (∀ stringify list ls,
       ∃ ls', Store.saveSessions stringify list ls = Store.Normal ls').
Proof.
  split_and!; [reflexivity|reflexivity|done..|].
  intros Hall. by destruct (Hall (λ _, "[]") [] Store.sealed) as [ls' ?].
Qed.

(** C7, on a store that holds a ledger of one record and no session in
    progress: the ledger is loaded as stored, the session in progress is the
    default, and a save of the ledger writes its text. *)
Lemma load_defaults_and_save_writes_witness :
  Store.stored Store.parseOneSession Store.SESSIONS_KEY Store.oneSessionStore
  = Some [Store.oneSession] ∧
  Store.loadSessions Store.parseOneSession Store.oneSessionStore
  = Store.Normal [Store.oneSession] ∧
  Store.loadCurrent (λ _, None) "2024-01-02" Store.oneSessionStore
  = Store.Normal (App.freshCurrent "2024-01-02") ∧
  Store.writable Store.SESSIONS_KEY Store.oneSessionText
    Store.oneSessionStore = true ∧
  Store.saveSessions (λ _, Store.oneSessionText) [Store.oneSession]
    Store.oneSessionStore
  = Store.Normal
      (Store.written Store.SESSIONS_KEY Store.oneSessionText
         Store.oneSessionStore).
Proof.
  pose proof (load_defaults_and_save_writes Store.parseOneSession
                (λ _, Store.oneSessionText) (λ _, None) (λ _, "{}")
                Store.parseOneLocation (λ _, Store.oneLocationText))
    as (Hload & Hcur & _ & _ & Hstored & Hsave & _).
  assert (Store.stored Store.parseOneSession Store.SESSIONS_KEY
            Store.oneSessionStore = Some [Store.oneSession]) as Hs.
  { apply Hstored. split; [reflexivity|]. exists Store.oneSessionText.
    split_and!; [reflexivity|discriminate|reflexivity]. }
  split_and!; [exact Hs| | |reflexivity|].
  - rewrite (Hload Store.oneSessionStore), Hs. reflexivity.
  - rewrite (Hcur "2024-01-02" Store.oneSessionStore). reflexivity.
  - exact (Hsave [Store.oneSession] Store.oneSessionStore eq_refl).
Defined.

(** ** The history filter *)
Section FilterFacts.
Import History.
Context (Number : string → option Z).

(** A guard [a !== neutral && b !== wanted] lets a record through exactly
    when the filter is neutral or the record has the wanted value. *)
Lemma guard_off (P Q : Prop) `{!Decision P, !Decision Q} :
  negb (bool_decide P) && negb (bool_decide Q) = false ↔ P ∨ Q.
Proof. repeat case_bool_decide; simpl; naive_solver. Qed.

Lemma from_guard_off (bound d : string) :
  Js.nonempty bound && Js.lt d bound = false ↔
  bound = "" ∨ String.leb bound d = true.
Proof.
  unfold Js.nonempty, Js.lt. rewrite <- ltb_false_leb.
  case_bool_decide; simpl; naive_solver.
Qed.

Lemma to_guard_off (bound d : string) :
  Js.nonempty bound && Js.gt d bound = false ↔
  bound = "" ∨ String.leb d bound = true.
Proof.
  unfold Js.nonempty, Js.gt. rewrite <- ltb_false_leb.
  case_bool_decide; simpl; naive_solver.
Qed.

Lemma keeps_passes (f : Filters) (s : Session) :
  keeps Number f s = true ↔ passes Number f s.
Proof.
  unfold keeps, passes, locationOk, yearOk, monthOk, fromOk, toOk.
  repeat match goal with
         | |- context [if ?g then false else _] => destruct g eqn:?
         end;
    repeat match goal with
           | H : _ = true |- _ => apply not_false_iff_true in H
           end;
    repeat match goal with
           | H : context [_ && _ = false] |- _ =>
               first [rewrite guard_off in H | rewrite from_guard_off in H
                     | rewrite to_guard_off in H]
           end;
    split; (done || tauto).
Qed.

Lemma keeps_noFilters (s : Session) : keeps Number noFilters s = true.
Proof. reflexivity. Qed.

Lemma filtered_noFilters (sessions : list Session) :
  filtered Number noFilters sessions = sessions.
Proof.
  unfold filtered, filterCall, Js.Array_filter. cbn [snd].
  induction sessions as [|s l IH]; cbn [List.filter]; [done|].
  by rewrite keeps_noFilters, IH.
Qed.

End FilterFacts.

(** C8: the history filter is the conjunction of its predicates.  A record is
    in the filtered view exactly when it is in the ledger and passes each of
    the five predicates, where one set to its neutral value ([ALL], month 0,
    an empty bound) lets every record through; the view lists the records it
    keeps in ledger order; with every filter neutral the view is the whole
    ledger; and the call leaves the ledger as it was. *)
Theorem filtered_is_conjunction (Number : string → option Z)
    (f : History.Filters) (sessions : list Session) :
  (∀ s, s ∈ History.filtered Number f sessions ↔
        s ∈ sessions ∧ History.passes Number f s) ∧
  sublist (History.filtered Number f sessions) sessions ∧
  History.filtered Number History.noFilters sessions = sessions ∧
  fst (History.filterCall Number f sessions) = sessions.
Proof.
  split_and!; [| |apply filtered_noFilters|done].
  - intros s. unfold History.filtered, History.filterCall, Js.Array_filter.
    cbn [snd]. rewrite list_elem_of_In, filter_In, <- list_elem_of_In.
    by rewrite keeps_passes.
  - unfold History.filtered, History.filterCall, Js.Array_filter. cbn [snd].
    induction sessions as [|s l IH]; cbn [List.filter]; [done|].
    destruct (History.keeps Number f s); by constructor.
Qed.

(** ** The service worker *)
Section SwFacts.
Import Sw.

Lemma sweep_lookup (caches : CacheStorage) (k k' : string) :
  sweep caches k !! k' =
    if bool_decide (k' = k ∧ k ≠ CACHE) then None else caches !! k'.
Proof.
  unfold sweep, caches_delete.
  destruct (decide (k = CACHE)) as [->|Hk].
  - rewrite bool_decide_eq_true_2 by done.
    by rewrite bool_decide_eq_false_2 by naive_solver.
  - rewrite (bool_decide_eq_false_2 (k = CACHE)) by done.
    destruct (decide (k' = k)) as [->|Hk'].
    + rewrite bool_decide_eq_true_2 by done. apply lookup_delete_eq.
    + rewrite bool_decide_eq_false_2 by naive_solver.
      by apply lookup_delete_ne.
Qed.

Lemma activateIn_lookup (keys : list string) (caches : CacheStorage)
    (k : string) :
  activateIn keys caches !! k =
    if bool_decide (k ∈ keys ∧ k ≠ CACHE) then None else caches !! k.
Proof.
  unfold activateIn. revert caches.
  induction keys as [|k0 keys IH]; intros caches; cbn [foldl].
  - rewrite bool_decide_eq_false_2; [done|]. intros [?%elem_of_nil _]. done.
  - rewrite IH, sweep_lookup. repeat case_bool_decide; try done;
      set_solver.
Qed.

Lemma bool_decide_ext_if {A} (P Q : Prop) `{!Decision P, !Decision Q}
    (x y : A) :
  (P ↔ Q) → (if bool_decide P then x else y) = (if bool_decide Q then x else y).
Proof. intros HPQ. by rewrite (bool_decide_ext P Q HPQ). Qed.

Lemma caches_keys_spec (caches : CacheStorage) (k : string) :
  k ∈ caches_keys caches ↔ is_Some (caches !! k).
Proof.
  unfold caches_keys. rewrite list_elem_of_fmap. split.
  - intros ([k' c] & -> & Hin). apply elem_of_map_to_list in Hin. eauto.
  - intros [c Hc]. exists (k, c). split; [done|].
    by apply elem_of_map_to_list.
Qed.

End SwFacts.

(** C9: activation sweeps the stale caches.  Once the activate handler has
    settled, no cache with a name other than the version tag [CACHE] is left,
    and the cache named [CACHE] is there with the content it had (or absent,
    if it was); the outcome does not depend on the order in which the
    deletions settle. *)
Theorem activate_sweeps_stale_caches
    (caches : gmap string (gmap string string)) :
  (∀ k, k ≠ Sw.CACHE → Sw.activate caches !! k = None) ∧
  Sw.activate caches !! Sw.CACHE = caches !! Sw.CACHE ∧
  (∀ keys, keys ≡ₚ Sw.caches_keys caches →
           Sw.activateIn keys caches = Sw.activate caches).
Proof.
  split_and!.
  - intros k Hk. unfold Sw.activate. rewrite activateIn_lookup.
    case_bool_decide as Hin; [done|].
    apply eq_None_not_Some. intros Hsome%caches_keys_spec. naive_solver.
  - unfold Sw.activate. rewrite activateIn_lookup.
    rewrite bool_decide_eq_false_2; [done|]. naive_solver.
  - intros keys Hperm. apply map_eq. intros k. unfold Sw.activate.
    rewrite !activateIn_lookup.
    apply bool_decide_ext_if. by rewrite Hperm.
Qed.

(** C9, on a device that still holds the cache of an older version. *)
Lemma activate_sweeps_stale_caches_witness :
  let caches : gmap string (gmap string string) :=
    {[ "pcache-v0" := {[ "/" := "old shell" ]};
       Sw.CACHE := {[ "/" := "shell" ]} ]} in
  "pcache-v0" ≠ Sw.CACHE ∧
  Sw.activate caches !! "pcache-v0" = None ∧
  Sw.activate caches !! Sw.CACHE = Some {[ "/" := "shell" ]} ∧
  Sw.activateIn ["pcache-v0"; Sw.CACHE] caches = Sw.activate caches.
Proof.
  intros caches.
  assert ("pcache-v0" ≠ Sw.CACHE) as Hne by discriminate.
  destruct (activate_sweeps_stale_caches caches) as (Hstale & Hcur & Hord).
  split_and!.
  - exact Hne.
  - exact (Hstale "pcache-v0" Hne).
  - rewrite Hcur. reflexivity.
  - apply Hord. vm_compute. apply perm_swap.
Defined.

(** ** The handlers on small inputs *)

Example sort_is_stable :
  Js.sort (λ a b : Z * string, a.1 - b.1)
    [(2, "a"); (1, "b"); (2, "c"); (1, "d")]
  = [(1, "b"); (1, "d"); (2, "a"); (2, "c")].
Proof. reflexivity. Qed.

Example add_rounds_past_2_53 :
  Js.add 4 2 = 6 ∧
  Js.add (2 ^ 53 - 2) 1 = 2 ^ 53 - 1 ∧
  Js.add (2 ^ 53) 1 = 2 ^ 53 ∧
  Js.add (2 ^ 53) 3 = 2 ^ 53 + 4 ∧
  Js.add (- 2 ^ 53) (- 1) = - 2 ^ 53.
Proof. by vm_compute. Qed.

Example finish_at_a_total_of_2_53 :
  let collation : Js.Collation := Js.alphabetical in
  Ledger.mergeOrAppend "2024-01-01" "Dhaka" 1 "2024-01-01T11:00:00.000Z" "b"
    [mkSession "a" "2024-01-01" "Dhaka" (2 ^ 53) "2024-01-01T09:00:00.000Z"]
  = [mkSession "a" "2024-01-01" "Dhaka" (2 ^ 53) "2024-01-01T11:00:00.000Z"].
Proof. intros collation. by vm_compute. Qed.

Example two_finishes_on_one_day :
  let collation : Js.Collation := Js.alphabetical in
  Ledger.mergeOrAppend "2024-01-01" "Barisal" 3 "2024-01-01T12:00:00.000Z" "b"
    (Ledger.mergeOrAppend "2024-01-01" "Dhaka" 5 "2024-01-01T09:00:00.000Z"
       "a" [])
  = [mkSession "b" "2024-01-01" "Barisal" 3 "2024-01-01T12:00:00.000Z";
     mkSession "a" "2024-01-01" "Dhaka" 5 "2024-01-01T09:00:00.000Z"].
Proof. intros collation. reflexivity. Qed.

Example merge_moves_record_to_front :
  let collation : Js.Collation := Js.alphabetical in
  Ledger.mergeOrAppend "2024-01-01" "Dhaka" 1 "2024-01-01T13:00:00.000Z" "c"
    [mkSession "b" "2024-01-01" "Barisal" 3 "2024-01-01T12:00:00.000Z";
     mkSession "a" "2024-01-01" "Dhaka" 5 "2024-01-01T09:00:00.000Z"]
  = [mkSession "a" "2024-01-01" "Dhaka" 6 "2024-01-01T13:00:00.000Z";
     mkSession "b" "2024-01-01" "Barisal" 3 "2024-01-01T12:00:00.000Z"].
Proof. intros collation. reflexivity. Qed.

Example counter_stops_at_99 `{!Js.Collation} :
  App.current
    (App.run
       (App.mkState [] (mkCurrent (Some "2024-01-01") (Some "Dhaka") 98 0 true)
          false)
       [App.Inc App.NewCount; App.Inc App.NewCount; App.Dec App.OldCount])
  = mkCurrent (Some "2024-01-01") (Some "Dhaka") 99 0 true.
Proof. reflexivity. Qed.

Example counting_needs_a_location `{!Js.Collation} :
  App.run (App.start "2024-01-01" []) [App.Inc App.NewCount]
  = App.start "2024-01-01" [].
Proof. reflexivity. Qed.

Example a_session_from_start_to_finish `{!Js.Collation} :
  App.run (App.start "2024-01-01" [])
    [App.SetLocation "Dhaka"; App.Inc App.NewCount; App.Inc App.OldCount;
     App.SetLocation "Barisal"; App.AskFinish;
     App.Finish "2024-01-01T09:00:00.000Z" "a"]
  = App.mkState
      [mkSession "a" "2024-01-01" "Dhaka" 2 "2024-01-01T09:00:00.000Z"]
      (mkCurrent (Some "2024-01-01") (Some "Dhaka") 0 0 false) false.
Proof. reflexivity. Qed.

Example filter_dhaka_2024 :
  History.filtered (λ _, None) (History.mkFilters "Dhaka" "2024" 0 "" "")
    [mkSession "c" "2024-02-01" "Dhaka" 2 "2024-02-01T09:00:00.000Z";
     mkSession "b" "2024-01-01" "Barisal" 3 "2024-01-01T12:00:00.000Z";
     mkSession "a" "2023-12-31" "Dhaka" 5 "2023-12-31T09:00:00.000Z"]
  = [mkSession "c" "2024-02-01" "Dhaka" 2 "2024-02-01T09:00:00.000Z"].
Proof. reflexivity. Qed.

Example filter_date_range :
  History.filtered (λ _, None)
    (History.mkFilters "ALL" "ALL" 0 "2024-01-01" "2024-01-31")
    [mkSession "c" "2024-02-01" "Dhaka" 2 "2024-02-01T09:00:00.000Z";
     mkSession "b" "2024-01-01" "Barisal" 3 "2024-01-01T12:00:00.000Z";
     mkSession "a" "2023-12-31" "Dhaka" 5 "2023-12-31T09:00:00.000Z"]
  = [mkSession "b" "2024-01-01" "Barisal" 3 "2024-01-01T12:00:00.000Z"].
Proof. reflexivity. Qed.

Example load_from_sealed_store :
  Store.loadSessions (λ _, None) Store.sealed = Store.Normal [] ∧
  Store.loadCurrent (λ _, None) "2024-01-01" Store.sealed
  = Store.Normal (mkCurrent (Some "2024-01-01") None 0 0 false).
Proof. split; reflexivity. Qed.

(** * Further properties of the code *)

(** ** Sorting a list that is in order *)
Section SortMore.
Context {A : Type} (comparefn : A → A → Z).

Lemma insert_in_front (x : A) (l : list A) :
  HdRel (Js.inOrder comparefn) x l → Js.insert comparefn x l = x :: l.
Proof.
  intros [|y l' Hxy]; simpl; [done|].
  unfold Js.inOrder in Hxy.
  destruct (0 <? comparefn x y) eqn:Hlt; [|done].
  apply Z.ltb_lt in Hlt. lia.
Qed.

Lemma sort_fixes_Sorted (l : list A) :
  Sorted (Js.inOrder comparefn) l → Js.sort comparefn l = l.
Proof.
  induction 1 as [|x l Hl IH Hx]; simpl; [done|].
  rewrite IH. by apply insert_in_front.
Qed.

Lemma Sorted_weaken (R1 R2 : relation A) (l : list A) :
  (∀ a b, R1 a b → R2 a b) → Sorted R1 l → Sorted R2 l.
Proof.
  intros HR. induction 1 as [|x l _ IH Hx]; constructor; [done|].
  destruct Hx; constructor; auto.
Qed.

Lemma StronglySorted_List_filter (R : relation A) (p : A → bool)
    (l : list A) :
  StronglySorted R l → StronglySorted R (List.filter p l).
Proof.
  induction 1 as [|x l Hl IH Hx]; simpl; [constructor|].
  destruct (p x); [|done]. constructor; [done|].
  rewrite Forall_forall in Hx |- *. intros y Hy.
  apply Hx. apply list_elem_of_In in Hy. apply filter_In in Hy as [Hy _].
  by apply list_elem_of_In.
Qed.

End SortMore.

(** ** The ledger's accounts *)
Section Accounts.
Import Ledger.
Context `{!Js.Collation}.

#[local] Instance sumZ_Permutation : Proper ((≡ₚ) ==> (=)) sumZ.
Proof.
  intros l1 l2 Hp. unfold sumZ.
  induction Hp as [|x l1 l2 _ IH|x y l|l1 l2 l3 _ IH1 _ IH2]; simpl; lia.
Qed.

Lemma sumZ_cons (x : Z) (l : list Z) : sumZ (x :: l) = x + sumZ l.
Proof. done. Qed.

Lemma sumZ_app (l1 l2 : list Z) :
  sumZ (l1 ++ l2)%list = sumZ l1 + sumZ l2.
Proof. unfold sumZ. induction l1 as [|x l1 IH]; simpl; lia. Qed.

Lemma tally_Permutation (d l : string) (l1 l2 : list Session) :
  l1 ≡ₚ l2 → tally d l l1 = tally d l l2.
Proof. unfold tally. by intros ->. Qed.

Lemma tally_cons (d l : string) (r : Session) (ledger : list Session) :
  tally d l (r :: ledger)
  = (if decide (sameSlot d l r) then total r else 0) + tally d l ledger.
Proof.
  unfold tally. rewrite filter_cons. by destruct (decide (sameSlot d l r)).
Qed.

Lemma tally_app (d l : string) (l1 l2 : list Session) :
  tally d l (l1 ++ l2)%list = tally d l l1 + tally d l l2.
Proof. unfold tally. by rewrite filter_app, fmap_app, sumZ_app. Qed.

(** The list [mergeOrAppend] hands to [sort]. *)
Lemma mergeOrAppend_Permutation (d l : string) (amount : Z)
    (ts uuid : string) (prev : list Session) :
  mergeOrAppend d l amount ts uuid prev ≡ₚ
    match Js.findIndex (sameSlot d l) prev with
    | Some (idx, r) =>
        (take idx prev
         ++ mkSession (sessionId r) d l (Js.add (total r) amount) ts
         :: drop (S idx) prev)%list
    | None => mkSession uuid d l amount ts :: prev
    end.
Proof.
  unfold mergeOrAppend.
  destruct (Js.findIndex (sameSlot d l) prev) as [[idx r]|] eqn:Hfind;
    rewrite sort_Permutation; [|done].
  apply list_find_Some in Hfind as (Hidx & [<- <-] & _).
  rewrite insert_take_drop; [done|]. by eapply lookup_lt_Some.
Qed.

Lemma findIndex_split (d l : string) (prev : list Session) (idx : nat)
    (r : Session) :
  Js.findIndex (sameSlot d l) prev = Some (idx, r) →
  prev = (take idx prev ++ r :: drop (S idx) prev)%list ∧ sameSlot d l r.
Proof.
  intros (Hidx & Hr & _)%list_find_Some. split; [|done].
  by rewrite take_drop_middle.
Qed.

(** Where the totals are added exactly, the merged record carries the
    exact sum. *)
Lemma findIndex_adds (d l : string) (amount : Z) (prev : list Session)
    (idx : nat) (r : Session) :
  addsExactly amount prev →
  Js.findIndex (sameSlot d l) prev = Some (idx, r) →
  Js.add (total r) amount = total r + amount.
Proof.
  intros Hsafe (Hidx & _ & _)%list_find_Some.
  apply (addsExactly_add amount prev); [done|].
  by eapply list_elem_of_lookup_2.
Qed.

End Accounts.

(** X1: every finish adds its amount to the tally of its own slot and to no
    other, on totals that JavaScript adds exactly.  For a ledger whose totals
    and their sums with [amount] are safe integers, the totals of the records
    with key (d', l'), added up, are after [mergeOrAppend d l amount] what
    they were, plus [amount] when (d', l') is (d, l). *)
Theorem finish_adds_to_its_slot `{!Js.Collation} (d l : string) (amount : Z)
    (ts uuid : string) (prev : list Session) (d' l' : string) :
  Ledger.addsExactly amount prev →
  Ledger.tally d' l' (Ledger.mergeOrAppend d l amount ts uuid prev)
  = Ledger.tally d' l' prev
    + (if decide (d' = d ∧ l' = l) then amount else 0).
Proof.
  intros Hsafe.
  rewrite (tally_Permutation _ _ _ _
             (mergeOrAppend_Permutation d l amount ts uuid prev)).
  destruct (Js.findIndex (Ledger.sameSlot d l) prev) as [[idx r]|] eqn:Hfind.
  - destruct (findIndex_split _ _ _ _ _ Hfind) as [Hsplit [Hd Hl]].
    rewrite (findIndex_adds _ _ _ _ _ _ Hsafe Hfind).
    rewrite Hsplit at 3. rewrite !tally_app, !tally_cons.
    repeat case_decide; unfold Ledger.sameSlot in *; simpl in *;
      first [lia | exfalso; naive_solver].
  - rewrite tally_cons.
    repeat case_decide; unfold Ledger.sameSlot in *; simpl in *;
      first [lia | exfalso; naive_solver].
Qed.

(** X1, on a ledger of two slots: two more patients at Dhaka. *)
Lemma finish_adds_to_its_slot_witness :
  let collation : Js.Collation := Js.alphabetical in
  let a := mkSession "a" "2024-01-02" "Dhaka" 4 "2024-01-02T09:00:00.000Z" in
  let b := mkSession "b" "2024-01-01" "Barisal" 7 "2024-01-01T09:00:00.000Z" in
  let next := Ledger.mergeOrAppend "2024-01-02" "Dhaka" 2
                "2024-01-02T11:00:00.000Z" "c" [a; b] in
  Ledger.addsExactly 2 [a; b] ∧
  Ledger.tally "2024-01-02" "Dhaka" next = 6 ∧
  Ledger.tally "2024-01-01" "Barisal" next = 7.
Proof.
  intros collation a b next.
  assert (Ledger.addsExactly 2 [a; b]) as Hsafe.
  { split; [by vm_compute|]. intros r Hr.
    assert (r = a ∨ r = b) as [-> | ->] by set_solver; by vm_compute. }
  split_and!; [exact Hsafe|..].
  - exact (finish_adds_to_its_slot "2024-01-02" "Dhaka" 2
             "2024-01-02T11:00:00.000Z" "c" [a; b] "2024-01-02" "Dhaka"
             Hsafe).
  - exact (finish_adds_to_its_slot "2024-01-02" "Dhaka" 2
             "2024-01-02T11:00:00.000Z" "c" [a; b] "2024-01-01" "Barisal"
             Hsafe).
Defined.

(** X2: on totals that JavaScript adds exactly, a finish adds its amount to
    the sum of all totals; and, whatever the totals, it lengthens the ledger
    by one record exactly when no record has its key. *)
Theorem finish_accounts `{!Js.Collation} (d l : string) (amount : Z)
    (ts uuid : string) (prev : list Session) :
  Ledger.addsExactly amount prev →
  Ledger.grandTotal (Ledger.mergeOrAppend d l amount ts uuid prev)
  = Ledger.grandTotal prev + amount ∧
  List.length (Ledger.mergeOrAppend d l amount ts uuid prev)
  = match Js.findIndex (Ledger.sameSlot d l) prev with
    | Some _ => List.length prev
    | None => S (List.length prev)
    end.
Proof.
  intros Hsafe.
  pose proof (mergeOrAppend_Permutation d l amount ts uuid prev) as Hp.
  unfold Ledger.grandTotal.
  rewrite (sumZ_Permutation _ _ (fmap_Permutation total _ _ Hp)).
  rewrite (Permutation_length Hp).
  destruct (Js.findIndex (Ledger.sameSlot d l) prev) as [[idx r]|] eqn:Hfind.
  - destruct (findIndex_split _ _ _ _ _ Hfind) as [Hsplit _].
    split.
    + rewrite (findIndex_adds _ _ _ _ _ _ Hsafe Hfind).
      rewrite Hsplit at 3.
      rewrite !fmap_app, !fmap_cons, !sumZ_app, !sumZ_cons. simpl. lia.
    + rewrite Hsplit at 3. by rewrite !length_app.
  - split; [|done]. rewrite fmap_cons, sumZ_cons. simpl. lia.
Qed.

(** X2, on a ledger of two slots: a merge, which keeps the two records. *)
Lemma finish_accounts_witness :
  let collation : Js.Collation := Js.alphabetical in
  let a := mkSession "a" "2024-01-02" "Dhaka" 4 "2024-01-02T09:00:00.000Z" in
  let b := mkSession "b" "2024-01-01" "Barisal" 7 "2024-01-01T09:00:00.000Z" in
  let next := Ledger.mergeOrAppend "2024-01-02" "Dhaka" 2
                "2024-01-02T11:00:00.000Z" "c" [a; b] in
  Ledger.addsExactly 2 [a; b] ∧
  Ledger.grandTotal next = 13 ∧ List.length next = 2%nat.
Proof.
  intros collation a b next.
  assert (Ledger.addsExactly 2 [a; b]) as Hsafe.
  { split; [by vm_compute|]. intros r Hr.
    assert (r = a ∨ r = b) as [-> | ->] by set_solver; by vm_compute. }
  split; [exact Hsafe|].
  exact (finish_accounts "2024-01-02" "Dhaka" 2 "2024-01-02T11:00:00.000Z"
           "c" [a; b] Hsafe).
Defined.

Section Slots.
Import Ledger.
Context `{!Js.Collation}.

Lemma NoDup_fmap_eq {A B} (f : A → B) (l : list A) (x y : A) :
  NoDup (f <$> l) → x ∈ l → y ∈ l → f x = f y → x = y.
Proof.
  induction l as [|z l IH]; simpl; [by intros _ ?%elem_of_nil|].
  rewrite NoDup_cons, !elem_of_cons.
  intros [Hz Hl] [->|Hx] [->|Hy] Hf; [done| | |by apply IH].
  - destruct Hz. rewrite Hf. by apply list_elem_of_fmap_2.
  - destruct Hz. rewrite <- Hf. by apply list_elem_of_fmap_2.
Qed.

Lemma tally_absent (d l : string) (ledger : list Session) :
  (d, l) ∉ (slot <$> ledger) → tally d l ledger = 0.
Proof.
  induction ledger as [|x ledger IH]; [done|].
  rewrite fmap_cons, not_elem_of_cons, tally_cons. intros [Hx Hl].
  rewrite IH by done. rewrite decide_False; [done|].
  intros [Hd Hlo]. apply Hx. unfold slot. by rewrite Hd, Hlo.
Qed.

(** With unique keys, the tally of a record's slot is the record's total. *)
Lemma tally_unique (ledger : list Session) (r : Session) :
  uniqueSlots ledger → r ∈ ledger →
  tally (date r) (location r) ledger = total r.
Proof.
  unfold uniqueSlots. induction ledger as [|x ledger IH];
    [by intros _ ?%elem_of_nil|].
  rewrite fmap_cons, NoDup_cons, tally_cons, elem_of_cons.
  intros [Hx Hl] [->|Hr].
  - rewrite decide_True by done. rewrite tally_absent by done. lia.
  - rewrite IH by done. rewrite decide_False; [lia|].
    intros [Hd Hlo]. apply Hx. apply list_elem_of_fmap. exists r.
    split; [|done]. unfold slot. by rewrite Hd, Hlo.
Qed.

(** The record a finish writes is in the result. *)
Lemma mergeOrAppend_written (d l : string) (amount : Z) (ts uuid : string)
    (prev : list Session) :
  ∃ r, r ∈ mergeOrAppend d l amount ts uuid prev ∧
       date r = d ∧ location r = l ∧ finishedAt r = ts.
Proof.
  pose proof (mergeOrAppend_Permutation d l amount ts uuid prev) as Hp.
  destruct (Js.findIndex (sameSlot d l) prev) as [[idx r0]|].
  - exists (mkSession (sessionId r0) d l (Js.add (total r0) amount) ts).
    split; [|done]. rewrite Hp, elem_of_app, elem_of_cons. auto.
  - exists (mkSession uuid d l amount ts).
    split; [|done]. rewrite Hp. apply elem_of_cons. auto.
Qed.

End Slots.

(** X3: a finish leaves the records of every other slot alone.  A record
    whose (date, location) is not the one finished is in the ledger after
    [mergeOrAppend] exactly when it was in it before, field for field. *)
Theorem finish_leaves_other_slots `{!Js.Collation} (d l : string) (amount : Z)
    (ts uuid : string) (prev : list Session) (r : Session) :
  Ledger.slot r ≠ (d, l) →
  r ∈ Ledger.mergeOrAppend d l amount ts uuid prev ↔ r ∈ prev.
Proof.
  intros Hslot.
  rewrite (mergeOrAppend_Permutation d l amount ts uuid prev).
  destruct (Js.findIndex (Ledger.sameSlot d l) prev) as [[idx r0]|] eqn:Hfind.
  - destruct (findIndex_split _ _ _ _ _ Hfind) as [Hsplit [Hd Hl]].
    rewrite Hsplit at 3. rewrite !elem_of_app, !elem_of_cons.
    assert (r ≠ r0) by (intros ->; apply Hslot; unfold Ledger.slot; congruence).
    assert (r ≠ mkSession (sessionId r0) d l (Js.add (total r0) amount) ts)
      by (intros ->; by apply Hslot).
    naive_solver.
  - rewrite elem_of_cons.
    assert (r ≠ mkSession uuid d l amount ts) by (intros ->; by apply Hslot).
    naive_solver.
Qed.

(** X3, on a ledger of two slots. *)
Lemma finish_leaves_other_slots_witness :
  let collation : Js.Collation := Js.alphabetical in
  let a := mkSession "a" "2024-01-02" "Dhaka" 4 "2024-01-02T09:00:00.000Z" in
  let b := mkSession "b" "2024-01-01" "Barisal" 7 "2024-01-01T09:00:00.000Z" in
  Ledger.slot b ≠ ("2024-01-02", "Dhaka") ∧
  (b ∈ Ledger.mergeOrAppend "2024-01-02" "Dhaka" 2
         "2024-01-02T11:00:00.000Z" "c" [a; b] ↔ b ∈ [a; b]).
Proof.
  intros collation.
  intros a b.
  assert (Ledger.slot b ≠ ("2024-01-02", "Dhaka")) as Hne by discriminate.
  split; [exact Hne|].
  exact (finish_leaves_other_slots "2024-01-02" "Dhaka" 2
           "2024-01-02T11:00:00.000Z" "c" [a; b] b Hne).
Defined.

(** X4: on a ledger with unique keys and totals that JavaScript adds
    exactly, the record of the finished slot carries the slot's whole tally
    and the time of the finish: its total is what the slot had (nothing, if
    it had no record) plus [amount], and its [finishedAt] is [ts]. *)
Theorem finish_updates_its_record `{!Js.Collation} (d l : string)
    (amount : Z) (ts uuid : string) (prev : list Session) (r : Session) :
  Ledger.addsExactly amount prev →
  Ledger.uniqueSlots prev →
  r ∈ Ledger.mergeOrAppend d l amount ts uuid prev →
  Ledger.slot r = (d, l) →
  total r = Ledger.tally d l prev + amount ∧ finishedAt r = ts.
Proof.
  intros Hsafe Hprev Hr [= Hd Hl].
  pose proof (mergeOrAppend_uniqueSlots d l amount ts uuid prev Hprev)
    as Huniq.
  split.
  - rewrite <- (tally_unique _ r Huniq Hr), Hd, Hl.
    rewrite (tally_Permutation _ _ _ _
               (mergeOrAppend_Permutation d l amount ts uuid prev)).
    destruct (Js.findIndex (Ledger.sameSlot d l) prev) as [[idx r0]|]
      eqn:Hfind.
    + destruct (findIndex_split _ _ _ _ _ Hfind) as [Hsplit [Hd0 Hl0]].
      rewrite (findIndex_adds _ _ _ _ _ _ Hsafe Hfind).
      rewrite Hsplit at 3. rewrite !tally_app, !tally_cons.
      rewrite !decide_True by done. simpl. lia.
    + rewrite tally_cons, decide_True by done. simpl. lia.
  - destruct (mergeOrAppend_written d l amount ts uuid prev)
      as (w & Hw & Hwd & Hwl & <-).
    f_equal. apply (NoDup_fmap_eq Ledger.slot _ r w Huniq Hr Hw).
    unfold Ledger.slot. congruence.
Qed.

(** X4, on a ledger of two slots: a second finish at Dhaka. *)
Lemma finish_updates_its_record_witness :
  let collation : Js.Collation := Js.alphabetical in
  let a := mkSession "a" "2024-01-02" "Dhaka" 4 "2024-01-02T09:00:00.000Z" in
  let b := mkSession "b" "2024-01-01" "Barisal" 7 "2024-01-01T09:00:00.000Z" in
  let r := mkSession "a" "2024-01-02" "Dhaka" 6 "2024-01-02T11:00:00.000Z" in
  Ledger.addsExactly 2 [a; b] ∧
  Ledger.uniqueSlots [a; b] ∧
  r ∈ Ledger.mergeOrAppend "2024-01-02" "Dhaka" 2
        "2024-01-02T11:00:00.000Z" "c" [a; b] ∧
  total r = Ledger.tally "2024-01-02" "Dhaka" [a; b] + 2 ∧
  finishedAt r = "2024-01-02T11:00:00.000Z".
Proof.
  intros collation a b r.
  assert (Ledger.addsExactly 2 [a; b]) as Hsafe.
  { split; [by vm_compute|]. intros r' Hr'.
    assert (r' = a ∨ r' = b) as [-> | ->] by set_solver; by vm_compute. }
  assert (Ledger.uniqueSlots [a; b]) as Hu.
  { unfold Ledger.uniqueSlots. apply (bool_decide_unpack _). vm_compute.
    exact I. }
  assert (r ∈ Ledger.mergeOrAppend "2024-01-02" "Dhaka" 2
                "2024-01-02T11:00:00.000Z" "c" [a; b]) as Hr.
  { apply (bool_decide_unpack _). vm_compute. exact I. }
  split; [exact Hsafe|]. split; [exact Hu|]. split; [exact Hr|].
  exact (finish_updates_its_record "2024-01-02" "Dhaka" 2
           "2024-01-02T11:00:00.000Z" "c" [a; b] r Hsafe Hu Hr eq_refl).
Defined.

(** X5: a finish keeps the identifiers.  A merge leaves the identifiers of
    the ledger as they are, an append adds the new one; so if the
    identifiers were pairwise distinct and the new one is not among them,
    they are pairwise distinct afterwards. *)
Theorem finish_keeps_identifiers `{!Js.Collation} (d l : string) (amount : Z)
    (ts uuid : string) (prev : list Session) :
  sessionId <$> Ledger.mergeOrAppend d l amount ts uuid prev ≡ₚ
    match Js.findIndex (Ledger.sameSlot d l) prev with
    | Some _ => sessionId <$> prev
    | None => uuid :: (sessionId <$> prev)
    end ∧
  (NoDup (sessionId <$> prev) → uuid ∉ (sessionId <$> prev) →
   NoDup (sessionId <$> Ledger.mergeOrAppend d l amount ts uuid prev)).
Proof.
  assert (sessionId <$> Ledger.mergeOrAppend d l amount ts uuid prev ≡ₚ
    match Js.findIndex (Ledger.sameSlot d l) prev with
    | Some _ => sessionId <$> prev
    | None => uuid :: (sessionId <$> prev)
    end) as Hids.
  { rewrite (mergeOrAppend_Permutation d l amount ts uuid prev).
    destruct (Js.findIndex (Ledger.sameSlot d l) prev) as [[idx r0]|]
      eqn:Hfind; [|done].
    destruct (findIndex_split _ _ _ _ _ Hfind) as [Hsplit _].
    rewrite Hsplit at 3. by rewrite !fmap_app, !fmap_cons. }
  split; [exact Hids|].
  intros Hnd Hfresh. rewrite Hids.
  destruct (Js.findIndex (Ledger.sameSlot d l) prev); [done|].
  by apply NoDup_cons.
Qed.

(** X5, on a ledger of two records and a new slot. *)
Lemma finish_keeps_identifiers_witness :
  let collation : Js.Collation := Js.alphabetical in
  let a := mkSession "a" "2024-01-02" "Dhaka" 4 "2024-01-02T09:00:00.000Z" in
  let b := mkSession "b" "2024-01-01" "Barisal" 7 "2024-01-01T09:00:00.000Z" in
  NoDup (sessionId <$> [a; b]) ∧
  ("c" ∉ (sessionId <$> [a; b])) ∧
  NoDup (sessionId <$> Ledger.mergeOrAppend "2024-01-03" "Dhaka" 2
                         "2024-01-03T11:00:00.000Z" "c" [a; b]).
Proof.
  intros collation.
  intros a b.
  assert (NoDup (sessionId <$> [a; b])) as Hnd.
  { apply (bool_decide_unpack _). vm_compute. exact I. }
  assert ("c" ∉ (sessionId <$> [a; b])) as Hfresh.
  { apply (bool_decide_unpack _). vm_compute. exact I. }
  split; [exact Hnd|]. split; [exact Hfresh|].
  exact (proj2 (finish_keeps_identifiers "2024-01-03" "Dhaka" 2
                  "2024-01-03T11:00:00.000Z" "c" [a; b]) Hnd Hfresh).
Defined.

Section HistoryRows.
Import Ledger History.

Lemma sort_fixes_code_order (l : list Session) :
  StronglySorted mayPrecede l →
  Js.sort (@byDateThenRecency Js.codeOrder) l = l.
Proof.
  intros Hl. apply sort_fixes_Sorted.
  apply (Sorted_weaken mayPrecede); [|by apply StronglySorted_Sorted].
  intros a b. apply byDateThenRecency_mayPrecede.
Qed.

Context `{!Js.Collation}.

Lemma sort_fixes_ledger_order (P : string → Prop) (l : list Session) :
  Js.byCodeOn P → textsIn P l →
  StronglySorted mayPrecede l → Js.sort byDateThenRecency l = l.
Proof.
  intros HP Hl Hs. rewrite (sort_byCode P) by done.
  by apply sort_fixes_code_order.
Qed.

Lemma filtered_texts (P : string → Prop) (Number : string → option Z)
    (f : Filters) (sessions : list Session) :
  textsIn P sessions → textsIn P (filtered Number f sessions).
Proof.
  intros Hl r Hr. apply Hl. revert Hr.
  unfold filtered, filterCall, Js.Array_filter. cbn [snd].
  rewrite list_elem_of_In, filter_In, <- list_elem_of_In. by intros [? _].
Qed.

Lemma step_stateIn (P : string → Prop) (st : App.State) (e : App.Event) :
  App.eventIn P e → App.stateIn P st → App.stateIn P (App.step st e).
Proof.
  intros He [Hl Hd]. destruct e as [k|k|k|v|v| | |ts uuid]; simpl in *;
    unfold App.onInc, App.onDec, App.onReset, App.changeDate,
      App.changeLocation;
    repeat case_match; try (split; [exact Hl|exact Hd]).
  - destruct k; (split; [exact Hl|exact Hd]).
  - destruct k; (split; [exact Hl|exact Hd]).
  - destruct k; (split; [exact Hl|exact Hd]).
  - split; [exact Hl|]. simpl. by intros d [= <-].
  - destruct (App.finishRefused (App.current st)) eqn:Hg.
    + rewrite doFinish_refused by done. by split.
    + destruct (doFinish_accepted ts uuid st Hg) as (d & l & Hcur & _ & ->).
      split; simpl.
      * apply mergeOrAppend_texts; auto.
      * intros d' [= <-]. auto.
Qed.

Lemma step_ledger_order (P : string → Prop) (st : App.State)
    (e : App.Event) :
  Js.byCodeOn P → App.eventIn P e → App.stateIn P st →
  StronglySorted mayPrecede (App.sessions st) →
  StronglySorted mayPrecede (App.sessions (App.step st e)).
Proof.
  intros HP He [Hl Hd] Hst.
  destruct e as [k|k|k|v|v| | |ts uuid];
    try (destruct (step_sessions st _) as [->|(? & ? & ? & ? & ? & Hs)];
         [exact Hst|]).
  all: try (simpl in *;
    unfold App.onInc, App.onDec, App.onReset, App.changeDate,
      App.changeLocation in *;
    repeat case_match; exact Hst).
  simpl. destruct (App.finishRefused (App.current st)) eqn:Hg.
  - by rewrite doFinish_refused.
  - destruct (doFinish_accepted ts uuid st Hg) as (d & l & Hcur & _ & ->).
    simpl. apply (mergeOrAppend_ledger_order P); auto.
Qed.

Lemma run_ledger_order (P : string → Prop) (es : list App.Event)
    (st : App.State) :
  Js.byCodeOn P → Forall (App.eventIn P) es → App.stateIn P st →
  StronglySorted mayPrecede (App.sessions st) →
  StronglySorted mayPrecede (App.sessions (App.run st es)).
Proof.
  intros HP Hes. revert st. unfold App.run.
  induction Hes as [|e es He _ IH]; intros st Hin Hst; simpl; [done|].
  apply IH; [by apply step_stateIn|by apply (step_ledger_order P)].
Qed.

End HistoryRows.

#[local] Instance mayPrecede_dec : RelDecision Ledger.mayPrecede.
Proof. intros a b. unfold Ledger.mayPrecede. apply _. Defined.

Lemma clinicTexts_elem (s : string) :
  bool_decide (s ∈ clinicTexts) = true → s ∈ clinicTexts.
Proof. apply bool_decide_eq_true_1. Qed.

(** X6: the rows of the history list.  Whatever the ledger and the filters,
    the list shows exactly the filtered records; on a ledger whose dates and
    timestamps [localeCompare] orders as their character codes do, the rows
    are in display order (date descending, then [finishedAt] descending);
    and when such a ledger is in display order itself, sorting changes
    nothing: the rows are the filtered records in ledger order. *)
Theorem history_rows_in_order `{!Js.Collation} (P : string → Prop)
    (Number : string → option Z) (f : History.Filters)
    (sessions : list Session) :
  Js.byCodeOn P →
  Ledger.textsIn P sessions →
  StronglySorted Ledger.mayPrecede (History.historyView Number f sessions) ∧
  History.historyView Number f sessions ≡ₚ History.filtered Number f sessions ∧
  (StronglySorted Ledger.mayPrecede sessions →
   History.historyView Number f sessions
   = History.filtered Number f sessions).
Proof.
  intros HP Hl. unfold History.historyView. split_and!.
  - apply (sort_ledger_order P); [done|]. by apply filtered_texts.
  - apply sort_Permutation.
  - intros Hs.
    apply (sort_fixes_ledger_order P); [done|by apply filtered_texts|].
    unfold History.filtered, History.filterCall, Js.Array_filter. cbn [snd].
    by apply StronglySorted_List_filter.
Qed.

(** X6, under an alphabetical collation, on a ledger of two records in
    display order, filtered by location. *)
Lemma history_rows_in_order_witness :
  let collation : Js.Collation := Js.alphabetical in
  let P := λ s, s ∈ clinicTexts in
  let ledger :=
    [mkSession "b" "2024-01-02" "Dhaka" 2 "2024-01-02T09:00:00.000Z";
     mkSession "a" "2024-01-01" "Barisal" 3 "2024-01-01T09:00:00.000Z"] in
  let f := History.mkFilters "Dhaka" "ALL" 0 "" "" in
  Js.byCodeOn P ∧ Ledger.textsIn P ledger ∧
  StronglySorted Ledger.mayPrecede ledger ∧
  StronglySorted Ledger.mayPrecede (History.historyView (λ _, None) f ledger) ∧
  History.historyView (λ _, None) f ledger
  = History.filtered (λ _, None) f ledger.
Proof.
  intros collation P ledger f.
  assert (Ledger.textsIn P ledger) as Hl.
  { intros r Hr.
    assert (r = mkSession "b" "2024-01-02" "Dhaka" 2
                  "2024-01-02T09:00:00.000Z"
            ∨ r = mkSession "a" "2024-01-01" "Barisal" 3
                    "2024-01-01T09:00:00.000Z") as [-> | ->] by set_solver;
      split; by apply clinicTexts_elem. }
  assert (StronglySorted Ledger.mayPrecede ledger) as Hs.
  { apply (bool_decide_unpack _). vm_compute. exact I. }
  destruct (history_rows_in_order P (λ _, None) f ledger
              alphabetical_clinicTexts Hl) as (Hord & _ & Hsame).
  split_and!; [exact alphabetical_clinicTexts|exact Hl|exact Hs|exact Hord|].
  exact (Hsame Hs).
Defined.

(** X7: the ledger stays in display order.  On dates and timestamps that
    [localeCompare] orders as their character codes do (those the state
    holds, the dates picked and the times of the finishes), if the stored
    ledger is in display order, it is in display order after every sequence
    of events. *)
Theorem ledger_stays_in_order `{!Js.Collation} (P : string → Prop)
    (st : App.State) (es : list App.Event) :
  Js.byCodeOn P →
  App.stateIn P st →
  Forall (App.eventIn P) es →
  StronglySorted Ledger.mayPrecede (App.sessions st) →
  StronglySorted Ledger.mayPrecede (App.sessions (App.run st es)).
Proof. intros HP Hst Hes. by apply (run_ledger_order P). Qed.

(** X7, under an alphabetical collation, on a ledger of one record and a
    session at a new slot. *)
Lemma ledger_stays_in_order_witness :
  let collation : Js.Collation := Js.alphabetical in
  let P := λ s, s ∈ clinicTexts in
  let st :=
    App.mkState
      [mkSession "a" "2024-01-01" "Dhaka" 4 "2024-01-01T09:00:00.000Z"]
      (mkCurrent (Some "2024-01-02") (Some "Dhaka") 0 0 false) false in
  let es := [App.Inc App.NewCount; App.Finish "2024-01-02T09:00:00.000Z" "b"] in
  Js.byCodeOn P ∧ App.stateIn P st ∧ Forall (App.eventIn P) es ∧
  StronglySorted Ledger.mayPrecede (App.sessions st) ∧
  StronglySorted Ledger.mayPrecede (App.sessions (App.run st es)) ∧
  App.sessions (App.run st es)
  = [mkSession "b" "2024-01-02" "Dhaka" 1 "2024-01-02T09:00:00.000Z";
     mkSession "a" "2024-01-01" "Dhaka" 4 "2024-01-01T09:00:00.000Z"].
Proof.
  intros collation P st es.
  assert (App.stateIn P st) as Hst.
  { split.
    - intros r Hr.
      assert (r = mkSession "a" "2024-01-01" "Dhaka" 4
                    "2024-01-01T09:00:00.000Z") as -> by set_solver.
      split; by apply clinicTexts_elem.
    - intros d [= <-]. by apply clinicTexts_elem. }
  assert (Forall (App.eventIn P) es) as Hes.
  { apply Forall_cons; split; [exact I|].
    apply Forall_cons; split; [by apply clinicTexts_elem|].
    by apply Forall_nil. }
  assert (StronglySorted Ledger.mayPrecede (App.sessions st)) as Hs.
  { apply (bool_decide_unpack _). vm_compute. exact I. }
  split_and!; [exact alphabetical_clinicTexts|exact Hst|exact Hes|exact Hs|
               |reflexivity].
  exact (ledger_stays_in_order P st es alphabetical_clinicTexts Hst Hes Hs).
Defined.

(** ** Counting *)
Section Counting.
Import App.
Context `{!Js.Collation}.

Lemma run_cons (st : State) (e : Event) (es : list Event) :
  run st (e :: es) = run (step st e) es.
Proof. done. Qed.

Lemma step_quiet (st : State) (e : Event) :
  ¬ successfulFinish st e →
  sessions (step st e) = sessions st ∧
  (locked (current st) = true →
   cur_date (current (step st e)) = cur_date (current st) ∧
   cur_location (current (step st e)) = cur_location (current st)).
Proof.
  intros Hq. destruct e as [k|k|k|v|v| | |ts uuid]; simpl;
    [| | | | | | |simpl in Hq; apply not_false_is_true in Hq;
                   by rewrite doFinish_refused];
    unfold onInc, onDec, onReset, changeDate, changeLocation, setCurrent,
      setShowFinish; repeat case_match; simpl; try done;
    try (by destruct k); by intros.
Qed.

Lemma pad2_two_digits (n : Z) :
  0 ≤ n ≤ 99 → String.length (pad2 n) = 2%nat.
Proof.
  intros Hn.
  assert (Forall (λ k, String.length (pad2 k) = 2%nat) (seqZ 0 100)) as Hall.
  { apply (bool_decide_unpack _). vm_compute. exact I. }
  rewrite Forall_forall in Hall. apply Hall. apply elem_of_seqZ. lia.
Qed.

End Counting.

(** X8: a counter always shows as two characters.  In every state reached
    from zero counters, [pad2] of [newCount] and of [oldCount] has exactly
    two characters, and [pad2] of a number below ten is a zero followed by
    its digit. *)
Theorem counters_show_two_digits `{!Js.Collation} (ledger : list Session)
    (d l : option string) (lk sf : bool) (es : list App.Event) :
  let c :=
    App.current (App.run (App.mkState ledger (mkCurrent d l 0 0 lk) sf) es) in
  String.length (pad2 (newCount c)) = 2%nat ∧
  String.length (pad2 (oldCount c)) = 2%nat ∧
  (∀ n, 0 ≤ n ≤ 9 → pad2 n = "0" +:+ Js.numberToString n).
Proof.
  assert (App.countersInRange
            (App.current
               (App.run (App.mkState ledger (mkCurrent d l 0 0 lk) sf) es)))
    as [Hn Ho].
  { apply (run_invariant (λ st, App.countersInRange (App.current st))).
    - apply step_countersInRange.
    - unfold App.countersInRange. simpl. lia. }
  split_and!; [by apply pad2_two_digits..|].
  intros n Hn9.
  assert (n = 0 ∨ n = 1 ∨ n = 2 ∨ n = 3 ∨ n = 4 ∨ n = 5 ∨ n = 6 ∨ n = 7
          ∨ n = 8 ∨ n = 9) as Hcases by lia.
  destruct_or!; subst n; reflexivity.
Qed.

(** X8, on a count of seven. *)
Lemma counters_show_two_digits_witness : 0 ≤ 7 ≤ 9 ∧ pad2 7 = "07".
Proof.
  assert (0 ≤ 7 ≤ 9) as H7 by lia.
  split; [exact H7|].
  exact (proj2 (proj2 (@counters_show_two_digits Js.alphabetical [] None None
                         false false []))
           7 H7).
Defined.

(** X9: while locked, the selection is frozen.  From a locked state, a
    sequence of events none of which is a finish that passes the guard
    leaves the date and the location as they were, and the state locked. *)
Theorem selection_frozen_while_locked `{!Js.Collation} (st : App.State)
    (es : list App.Event) :
  locked (App.current st) = true →
  App.noFinishAccepted st es →
  cur_date (App.current (App.run st es)) = cur_date (App.current st) ∧
  cur_location (App.current (App.run st es))
  = cur_location (App.current st) ∧
  locked (App.current (App.run st es)) = true.
Proof.
  revert st. induction es as [|e es IH]; intros st Hlk Hq; [done|].
  destruct Hq as [Hq Hrest]. rewrite run_cons.
  destruct (step_quiet st e Hq) as [_ Hsel].
  destruct (Hsel Hlk) as [<- <-].
  apply IH; [|done]. by apply step_locked.
Qed.

(** X9, on a locked session at Dhaka: a change of location, a change of
    date, a reset and a finish refused for its zero total. *)
Lemma selection_frozen_while_locked_witness :
  let collation : Js.Collation := Js.alphabetical in
  let st :=
    App.mkState [] (mkCurrent (Some "2024-01-01") (Some "Dhaka") 1 0 true)
      false in
  let es :=
    [App.SetLocation "Barisal"; App.SetDate "2024-01-02";
     App.Reset App.NewCount; App.Finish "2024-01-01T09:00:00.000Z" "a"] in
  locked (App.current st) = true ∧
  App.noFinishAccepted st es ∧
  cur_date (App.current (App.run st es)) = Some "2024-01-01" ∧
  cur_location (App.current (App.run st es)) = Some "Dhaka".
Proof.
  intros collation.
  intros st es.
  assert (App.noFinishAccepted st es) as Hq.
  { simpl. split_and!; try tauto. discriminate. }
  destruct (selection_frozen_while_locked st es eq_refl Hq) as (Hd & Hl & _).
  split_and!; [reflexivity|exact Hq|exact Hd|exact Hl].
Defined.

(** X10: only a finish that passes the guard writes to the ledger.  A
    sequence of events none of which is such a finish leaves the ledger as
    it was. *)
Theorem ledger_changes_only_on_finish `{!Js.Collation} (st : App.State)
    (es : list App.Event) :
  App.noFinishAccepted st es →
  App.sessions (App.run st es) = App.sessions st.
Proof.
  revert st. induction es as [|e es IH]; intros st Hq; [done|].
  destruct Hq as [Hq Hrest]. rewrite run_cons.
  destruct (step_quiet st e Hq) as [<- _]. by apply IH.
Qed.

(** X10, on a session that counts, resets and is refused its finish. *)
Lemma ledger_changes_only_on_finish_witness :
  let collation : Js.Collation := Js.alphabetical in
  let ledger :=
    [mkSession "a" "2024-01-01" "Dhaka" 4 "2024-01-01T09:00:00.000Z"] in
  let st :=
    App.mkState ledger (mkCurrent (Some "2024-01-01") (Some "Dhaka") 0 0 false)
      false in
  let es :=
    [App.Inc App.NewCount; App.Reset App.NewCount; App.AskFinish;
     App.Finish "2024-01-01T11:00:00.000Z" "b"] in
  App.noFinishAccepted st es ∧ App.sessions (App.run st es) = ledger.
Proof.
  intros collation.
  intros ledger st es.
  assert (App.noFinishAccepted st es) as Hq.
  { simpl. split_and!; try tauto. discriminate. }
  split; [exact Hq|].
  exact (ledger_changes_only_on_finish st es Hq).
Defined.

Section CounterSteps.
Import App.
Context `{!Js.Collation}.

Lemma getCount_setCount (key : CounterKey) (v : Z) (lk : bool)
    (s : CurrentState) :
  getCount key (setCount key v lk s) = v ∧
  getCount (otherKey key) (setCount key v lk s) = getCount (otherKey key) s.
Proof. by destruct key. Qed.

Lemma onInc_enabled (key : CounterKey) (st : State) :
  counterEnabled (current st) = true →
  getCount key (current (onInc key st))
  = clamp (getCount key (current st) + 1) 0 99 ∧
  getCount (otherKey key) (current (onInc key st))
  = getCount (otherKey key) (current st) ∧
  counterEnabled (current (onInc key st)) = true.
Proof.
  intros He. unfold onInc. rewrite He. simpl.
  destruct (getCount_setCount key
              (clamp (getCount key (current st) + 1) 0 99)
              (locked (current st)
               || (0 <? clamp (getCount key (current st) + 1) 0 99)
               || (0 <? newCount (current st) + oldCount (current st)))
              (current st)) as [-> ->].
  split_and!; [done..|]. by destruct key.
Qed.

Lemma onDec_enabled (key : CounterKey) (st : State) :
  counterEnabled (current st) = true →
  getCount key (current (onDec key st))
  = clamp (getCount key (current st) - 1) 0 99 ∧
  getCount (otherKey key) (current (onDec key st))
  = getCount (otherKey key) (current st).
Proof.
  intros He. unfold onDec. rewrite He. simpl.
  by destruct (getCount_setCount key
              (clamp (getCount key (current st) - 1) 0 99)
              (locked (current st)
               || (0 <? newCount (current st) + oldCount (current st)))
              (current st)) as [-> ->].
Qed.

End CounterSteps.

(** X11: an increment is undone by a decrement, short of the ceiling.  With
    a date and a location selected and the counter between 0 and 98, [onInc]
    followed by [onDec] on the same counter leaves both counters as they
    were. *)
Theorem increment_then_decrement (key : App.CounterKey) (st : App.State) :
  App.counterEnabled (App.current st) = true →
  0 ≤ App.getCount key (App.current st) < 99 →
  let st' := App.onDec key (App.onInc key st) in
  App.getCount key (App.current st') = App.getCount key (App.current st) ∧
  App.getCount (App.otherKey key) (App.current st')
  = App.getCount (App.otherKey key) (App.current st).
Proof.
  intros He Hn st'. subst st'.
  destruct (onInc_enabled key st He) as (Hi & Hio & He').
  destruct (onDec_enabled key (App.onInc key st) He') as (Hd & Hdo).
  rewrite Hd, Hdo, Hi, Hio.
  unfold clamp, Js.Math_max, Js.Math_min. split; [lia|done].
Qed.

(** X11, on a session at Dhaka with 41 new patients. *)
Lemma increment_then_decrement_witness :
  let st :=
    App.mkState [] (mkCurrent (Some "2024-01-01") (Some "Dhaka") 41 7 true)
      false in
  App.counterEnabled (App.current st) = true ∧
  App.getCount App.NewCount
    (App.current (App.onDec App.NewCount (App.onInc App.NewCount st))) = 41.
Proof.
  intros st.
  split; [reflexivity|].
  refine (proj1 (increment_then_decrement App.NewCount st eq_refl _)).
  simpl. lia.
Defined.

(** X12: what a finish adds.  In a state reached from zero counters, a
    finish that passes the guard has a total of at least 1 and at most 198;
    and on a ledger whose totals JavaScript adds to it exactly, the finish
    adds that total to the sum of the ledger's totals. *)
Theorem finish_adds_the_total `{!Js.Collation} (ledger : list Session)
    (d l : option string) (lk sf : bool) (es : list App.Event)
    (ts uuid : string) :
  let st := App.run (App.mkState ledger (mkCurrent d l 0 0 lk) sf) es in
  App.finishRefused (App.current st) = false →
  1 ≤ App.totalOf (App.current st) ≤ 198 ∧
  (Ledger.addsExactly (App.totalOf (App.current st)) (App.sessions st) →
   Ledger.grandTotal (App.sessions (App.doFinish ts uuid st))
   = Ledger.grandTotal (App.sessions st) + App.totalOf (App.current st)).
Proof.
  intros st Hg.
  assert (App.countersInRange (App.current st)) as [Hn Ho].
  { apply (run_invariant (λ st, App.countersInRange (App.current st))).
    - apply step_countersInRange.
    - unfold App.countersInRange. simpl. lia. }
  assert (App.totalOf (App.current st) ≠ 0) as Hnz.
  { unfold App.finishRefused in Hg.
    apply orb_false_elim in Hg as [Hg _].
    apply orb_false_elim in Hg as [Hg _].
    by apply bool_decide_eq_false in Hg. }
  split; [unfold App.totalOf in *; lia|]. intros Hsafe.
  destruct (doFinish_accepted ts uuid st Hg) as (d' & l' & _ & _ & ->).
  simpl. unfold Ledger.grandTotal.
  rewrite (sumZ_Permutation _ _
             (fmap_Permutation total _ _
                (mergeOrAppend_Permutation d' l'
                   (App.totalOf (App.current st)) ts uuid
                   (App.sessions st)))).
  destruct (Js.findIndex (Ledger.sameSlot d' l') (App.sessions st))
    as [[idx r]|] eqn:Hfind.
  - destruct (findIndex_split _ _ _ _ _ Hfind) as [Hsplit _].
    rewrite (findIndex_adds _ _ _ _ _ _ Hsafe Hfind).
    rewrite Hsplit at 3.
    rewrite !fmap_app, !fmap_cons, !sumZ_app, !sumZ_cons. simpl. lia.
  - rewrite fmap_cons, sumZ_cons. simpl. lia.
Qed.

(** X12, on a session of three patients at Dhaka. *)
Lemma finish_adds_the_total_witness :
  let collation : Js.Collation := Js.alphabetical in
  let ledger :=
    [mkSession "a" "2024-01-01" "Dhaka" 4 "2024-01-01T09:00:00.000Z"] in
  let st :=
    App.run
      (App.mkState ledger
         (mkCurrent (Some "2024-01-01") (Some "Dhaka") 0 0 false) false)
      [App.Inc App.NewCount; App.Inc App.NewCount; App.Inc App.OldCount] in
  App.finishRefused (App.current st) = false ∧
  Ledger.addsExactly (App.totalOf (App.current st)) (App.sessions st) ∧
  Ledger.grandTotal
    (App.sessions (App.doFinish "2024-01-01T11:00:00.000Z" "b" st)) = 7.
Proof.
  intros collation ledger st.
  assert (Ledger.addsExactly (App.totalOf (App.current st))
            (App.sessions st)) as Hsafe.
  { split; [by vm_compute|]. intros r Hr.
    assert (r = mkSession "a" "2024-01-01" "Dhaka" 4
                  "2024-01-01T09:00:00.000Z") as -> by set_solver.
    by vm_compute. }
  split; [reflexivity|]. split; [exact Hsafe|].
  exact (proj2 (finish_adds_the_total ledger (Some "2024-01-01")
                  (Some "Dhaka") false false
                  [App.Inc App.NewCount; App.Inc App.NewCount;
                   App.Inc App.OldCount]
                  "2024-01-01T11:00:00.000Z" "b" eq_refl) Hsafe).
Defined.

(** X13: a finish is not counted twice.  Whatever the state, a second
    [doFinish] right after a first changes neither the ledger nor the
    current-session state. *)
Theorem second_finish_changes_nothing `{!Js.Collation}
    (ts uuid ts' uuid' : string) (st : App.State) :
  App.doFinish ts' uuid' (App.doFinish ts uuid st)
  = App.doFinish ts uuid st.
Proof.
  destruct (App.finishRefused (App.current st)) eqn:Hg.
  - rewrite (doFinish_refused ts uuid st Hg).
    by rewrite doFinish_refused.
  - destruct (doFinish_accepted ts uuid st Hg) as (d & l & _ & _ & ->).
    by rewrite doFinish_refused.
Qed.

(** ** The location slots *)
Section LocationSlots.
Import Store Locations.

Lemma placeholder_nonempty (i : nat) : placeholder i ≠ "".
Proof. done. Qed.

Lemma labelFor_nonempty (i : nat) (value : string) : labelFor i value ≠ "".
Proof.
  unfold labelFor, Js.nonempty.
  case_bool_decide as Hv; simpl; [|done].
  destruct (DEFAULT_LOCATIONS !! i) as [def|]; [|done].
  case_bool_decide; simpl; done.
Qed.

Lemma fiveSlots_lookup (arr : list string) (i : nat) :
  (i < 5)%nat →
  fiveSlots arr !! i
  = if decide (i < List.length arr)%nat then arr !! i
    else Some (placeholder i).
Proof.
  intros Hi. unfold fiveSlots. cbn zeta.
  rewrite lookup_take_lt by done.
  destruct (decide (i < List.length arr)%nat) as [Hlt|Hge].
  - by rewrite lookup_app_l.
  - rewrite lookup_app_r by lia.
    rewrite list_lookup_fmap, lookup_seq_lt by lia. simpl.
    f_equal. f_equal. lia.
Qed.

End LocationSlots.

(** X14: renaming a slot.  For an index of the list, the rename handler
    keeps the number of slots and every other slot, never leaves the slot
    empty, writes a non-empty input as it is, and on an empty input puts the
    default label of the slot back. *)
Theorem rename_keeps_slots (i : nat) (value : string)
    (locations : list string) :
  (i < List.length locations)%nat →
  let renamed := Locations.renameLocation i value locations in
  List.length renamed = List.length locations ∧
  (∀ j, j ≠ i → renamed !! j = locations !! j) ∧
  (∃ label, renamed !! i = Some label ∧ label ≠ "") ∧
  (value ≠ "" → renamed !! i = Some value) ∧
  (value = "" → (i < 5)%nat → renamed !! i = Store.DEFAULT_LOCATIONS !! i).
Proof.
  intros Hi renamed. subst renamed. unfold Locations.renameLocation.
  split_and!.
  - apply length_insert.
  - intros j Hj. by apply list_lookup_insert_ne.
  - exists (Locations.labelFor i value).
    split; [by apply list_lookup_insert_eq|apply labelFor_nonempty].
  - intros Hv. rewrite list_lookup_insert_eq by done.
    unfold Locations.labelFor, Js.nonempty.
    by rewrite bool_decide_eq_false_2.
  - intros -> Hi5. rewrite list_lookup_insert_eq by done.
    assert (i = 0 ∨ i = 1 ∨ i = 2 ∨ i = 3 ∨ i = 4)%nat as Hcases by lia.
    destruct_or!; subst i; reflexivity.
Qed.

(** X14, on the default labels: slot 1 renamed, and slot 2 cleared. *)
Lemma rename_keeps_slots_witness :
  Locations.renameLocation 1 "Khulna" Store.DEFAULT_LOCATIONS !! 1%nat
  = Some "Khulna" ∧
  Locations.renameLocation 2 "" Store.DEFAULT_LOCATIONS !! 2%nat
  = Some "Gazipur".
Proof.
  split.
  - refine (proj1 (proj2 (proj2 (proj2
             (rename_keeps_slots 1 "Khulna" Store.DEFAULT_LOCATIONS _)))) _).
    + simpl. lia.
    + discriminate.
  - refine (proj2 (proj2 (proj2 (proj2
             (rename_keeps_slots 2 "" Store.DEFAULT_LOCATIONS _)))) _ _).
    + simpl. lia.
    + reflexivity.
    + lia.
Defined.

(** X15: the five slots of [loadLocations].  Every load yields exactly five
    labels.  When a list is stored, slot [i] holds its [i]-th label if it has
    one and otherwise the placeholder of the slot ([Clinic A] for slot 0,
    [Clinic B] for slot 1, ...); labels past the fifth are dropped. *)
Theorem loadLocations_five_slots (read : string → option (list string))
    (ls : Store.LocalStorage) :
  ∃ names,
    Store.loadLocations read ls = Store.Normal names ∧
    List.length names = 5%nat ∧
    (∀ arr i,
       Store.stored read Store.LOCATIONS_KEY ls = Some arr → (i < 5)%nat →
       names !! i
       = if decide (i < List.length arr)%nat then arr !! i
         else Some (Store.placeholder i)).
Proof.
  rewrite loadLocations_body.
  destruct (Store.stored read Store.LOCATIONS_KEY ls) as [arr|]; simpl.
  - exists (Store.fiveSlots arr).
    split_and!; [done|apply fiveSlots_length|].
    intros arr' i [= <-] Hi. by apply fiveSlots_lookup.
  - exists Store.DEFAULT_LOCATIONS. split_and!; done.
Qed.

(** X15, on a store that holds a list of one label. *)
Lemma loadLocations_five_slots_witness :
  Store.stored Store.parseOneLocation Store.LOCATIONS_KEY
    Store.oneLocationStore = Some ["Dhaka"] ∧
  ∃ names,
    Store.loadLocations Store.parseOneLocation Store.oneLocationStore
    = Store.Normal names ∧
    names !! 0%nat = Some "Dhaka" ∧ names !! 3%nat = Some "Clinic D".
Proof.
  split; [reflexivity|].
  destruct (loadLocations_five_slots Store.parseOneLocation
              Store.oneLocationStore) as (names & Hload & _ & Hslots).
  exists names. split; [exact Hload|].
  split.
  - rewrite (Hslots ["Dhaka"] 0%nat eq_refl); [reflexivity|lia].
  - rewrite (Hslots ["Dhaka"] 3%nat eq_refl); [reflexivity|lia].
Defined.

(** ** Saving and loading again *)
Section RoundTrip.
Import Store.

Lemma stored_written_eq {T} (read : string → option T) (key text : string)
    (ls : LocalStorage) :
  reachable ls = true → text ≠ "" →
  stored read key (written key text ls) = read text.
Proof.
  intros Hr Ht. unfold stored, written, Js.nonempty. simpl.
  rewrite Hr, lookup_insert_eq. by rewrite bool_decide_eq_false_2.
Qed.

Lemma stored_written_ne {T} (read : string → option T)
    (key key' text : string) (ls : LocalStorage) :
  key ≠ key' →
  stored read key' (written key text ls) = stored read key' ls.
Proof.
  intros Hk. unfold stored, written. simpl. by rewrite lookup_insert_ne.
Qed.

Lemma setItem_Normal (key text : string) (ls ls' : LocalStorage) :
  setItem ls key text = Normal ls' →
  ls' = written key text ls ∧ reachable ls = true.
Proof.
  rewrite setItem_cases. unfold writable.
  destruct (reachable ls); simpl; [|done].
  destruct (accepts ls key text); naive_solver.
Qed.

Lemma setItem_writable (key text : string) (ls : LocalStorage) :
  writable key text ls = true →
  setItem ls key text = Normal (written key text ls) ∧ reachable ls = true.
Proof.
  intros Hw. rewrite setItem_cases, Hw. split; [done|].
  unfold writable in Hw. by apply andb_true_iff in Hw as [-> _].
Qed.

End RoundTrip.

(** X16: what is saved is what is loaded.  If the store takes the write and
    the serialised text is not empty and parses back to the value, then
    after [saveSessions] the ledger loads as it was saved, after
    [saveCurrent] the session in progress does, and after [saveLocations]
    the load yields the saved labels fitted to five slots (the labels
    themselves when there are five). *)
Theorem save_then_load
    (parseSessions : string → option (list Session))
    (stringifySessions : list Session → string)
    (parseCurrent : string → option CurrentState)
    (stringifyCurrent : CurrentState → string)
    (parseLocations : string → option (list string))
    (stringifyLocations : list string → string) :
  (∀ list ls,
     Store.writable Store.SESSIONS_KEY (stringifySessions list) ls = true →
     stringifySessions list ≠ "" →
     parseSessions (stringifySessions list) = Some list →
     ∃ ls', Store.saveSessions stringifySessions list ls = Store.Normal ls' ∧
            Store.loadSessions parseSessions ls' = Store.Normal list) ∧
  (∀ s today ls,
     Store.writable Store.CURRENT_KEY (stringifyCurrent s) ls = true →
     stringifyCurrent s ≠ "" →
     parseCurrent (stringifyCurrent s) = Some s →
     ∃ ls', Store.saveCurrent stringifyCurrent s ls = Store.Normal ls' ∧
            Store.loadCurrent parseCurrent today ls' = Store.Normal s) ∧
  (∀ names ls,
     let text := stringifyLocations (take 5 names) in
     Store.writable Store.LOCATIONS_KEY text ls = true →
     text ≠ "" →
     parseLocations text = Some (take 5 names) →
     ∃ ls', Store.saveLocations stringifyLocations names ls
            = Store.Normal ls' ∧
            Store.loadLocations parseLocations ls'
            = Store.Normal (Store.fiveSlots (take 5 names)) ∧
            (List.length names = 5%nat →
             Store.loadLocations parseLocations ls' = Store.Normal names)).
Proof.
  split_and!.
  - intros list ls Hw Hne Hparse.
    destruct (setItem_writable _ _ _ Hw) as [Hset Hr].
    eexists. split; [exact Hset|].
    unfold Store.loadSessions. rewrite load_body.
    by rewrite stored_written_eq, Hparse.
  - intros s today ls Hw Hne Hparse.
    destruct (setItem_writable _ _ _ Hw) as [Hset Hr].
    eexists. split; [exact Hset|].
    unfold Store.loadCurrent. rewrite load_body.
    by rewrite stored_written_eq, Hparse.
  - intros names ls text Hw Hne Hparse.
    destruct (setItem_writable _ _ _ Hw) as [Hset Hr].
    eexists. split; [exact Hset|].
    rewrite loadLocations_body, stored_written_eq, Hparse by done.
    split; [done|]. intros Hlen. simpl.
    rewrite take_ge by lia. by rewrite fiveSlots_id.
Qed.

(** X16, on an empty store that takes every write and the ledger of one
    record. *)
Lemma save_then_load_witness :
  let ls := Store.mkStorage true (λ _ _, true) ∅ in
  let stringify (_ : list Session) := Store.oneSessionText in
  Store.writable Store.SESSIONS_KEY (stringify [Store.oneSession]) ls = true ∧
  ∃ ls',
    Store.saveSessions stringify [Store.oneSession] ls = Store.Normal ls' ∧
    Store.loadSessions Store.parseOneSession ls'
    = Store.Normal [Store.oneSession].
Proof.
  intros ls stringify.
  split; [reflexivity|].
  refine (proj1 (save_then_load Store.parseOneSession stringify
                   (λ _, None) (λ _, "{}") Store.parseOneLocation
                   (λ _, Store.oneLocationText))
            [Store.oneSession] ls _ _ _).
  - reflexivity.
  - discriminate.
  - reflexivity.
Defined.

(** X17: the three records are stored apart.  A save of one record that
    goes through changes nothing in what the loaders of the other two
    return. *)
Theorem saves_do_not_interfere
    (parseSessions : string → option (list Session))
    (stringifySessions : list Session → string)
    (parseCurrent : string → option CurrentState)
    (stringifyCurrent : CurrentState → string)
    (parseLocations : string → option (list string))
    (stringifyLocations : list string → string)
    (today : string) (ls ls' : Store.LocalStorage) :
  (∀ list,
     Store.saveSessions stringifySessions list ls = Store.Normal ls' →
     Store.loadCurrent parseCurrent today ls'
     = Store.loadCurrent parseCurrent today ls ∧
     Store.loadLocations parseLocations ls'
     = Store.loadLocations parseLocations ls) ∧
  (∀ s,
     Store.saveCurrent stringifyCurrent s ls = Store.Normal ls' →
     Store.loadSessions parseSessions ls'
     = Store.loadSessions parseSessions ls ∧
     Store.loadLocations parseLocations ls'
     = Store.loadLocations parseLocations ls) ∧
  (∀ names,
     Store.saveLocations stringifyLocations names ls = Store.Normal ls' →
     Store.loadSessions parseSessions ls'
     = Store.loadSessions parseSessions ls ∧
     Store.loadCurrent parseCurrent today ls'
     = Store.loadCurrent parseCurrent today ls).
Proof.
  split_and!; intros v [-> _]%setItem_Normal;
    unfold Store.loadSessions, Store.loadCurrent;
    rewrite ?load_body, ?loadLocations_body;
    by rewrite !stored_written_ne by done.
Qed.

(** X17, on the store that holds the ledger of one record: saving the
    session in progress leaves the ledger as it loads. *)
Lemma saves_do_not_interfere_witness :
  let s := mkCurrent (Some "2024-01-01") (Some "Dhaka") 2 1 true in
  let ls' := Store.written Store.CURRENT_KEY "{}" Store.oneSessionStore in
  Store.saveCurrent (λ _, "{}") s Store.oneSessionStore = Store.Normal ls' ∧
  Store.loadSessions Store.parseOneSession ls'
  = Store.Normal [Store.oneSession].
Proof.
  intros s ls'.
  assert (Store.saveCurrent (λ _, "{}") s Store.oneSessionStore
          = Store.Normal ls') as Hsave by reflexivity.
  split; [exact Hsave|].
  rewrite (proj1 (proj1 (proj2 (saves_do_not_interfere Store.parseOneSession
             (λ _, Store.oneSessionText) (λ _, None) (λ _, "{}")
             Store.parseOneLocation (λ _, Store.oneLocationText)
             "2024-01-01" Store.oneSessionStore ls')) s Hsave)).
  reflexivity.
Defined.

(** ** The year filter and the date range *)
Section Years.
Import History.

Lemma leb_ne_ltb (a b : string) :
  String.leb a b = true → a ≠ b → String.ltb a b = true.
Proof.
  unfold String.leb, String.ltb. intros Hle Hne.
  destruct (String.compare a b) eqn:Hc; [|done|done].
  by apply String.compare_eq_iff in Hc.
Qed.

Lemma defaultCompare_leb (a b : string) :
  Js.inOrder Js.defaultCompare a b ↔ String.leb a b = true.
Proof.
  unfold Js.inOrder, Js.defaultCompare, Js.lt.
  destruct (String.ltb a b) eqn:Hab.
  - split; [intros _|lia]. apply ltb_false_leb.
    unfold String.ltb in *. rewrite String.compare_antisym.
    by destruct (String.compare a b).
  - destruct (String.ltb b a) eqn:Hba.
    + split; [lia|]. intros Hle%ltb_false_leb. congruence.
    + split; [intros _|lia]. by apply ltb_false_leb.
Qed.

Lemma Set_add_elem (x y : string) (set : list string) :
  y ∈ Js.Set_add x set ↔ y = x ∨ y ∈ set.
Proof. unfold Js.Set_add. case_decide; set_solver. Qed.

Lemma Set_add_NoDup (x : string) (set : list string) :
  NoDup set → NoDup (Js.Set_add x set).
Proof.
  unfold Js.Set_add. case_decide; [done|]. intros Hnd.
  apply NoDup_app. split_and!; [done|set_solver|apply NoDup_singleton].
Qed.

Lemma yearSet_spec (sessions : list Session) (set0 : list string) :
  let set :=
    foldl (λ set s, Js.Set_add (Js.slice (date s) 0 4) set) set0 sessions in
  (NoDup set0 → NoDup set) ∧
  (∀ y, y ∈ set ↔ y ∈ set0 ∨ ∃ s, s ∈ sessions ∧ Js.slice (date s) 0 4 = y).
Proof.
  revert set0. induction sessions as [|s sessions IH]; intros set0; simpl.
  - split; [done|]. intros y. split; [auto|].
    intros [?|(s & Hs%elem_of_nil & _)]; done.
  - destruct (IH (Js.Set_add (Js.slice (date s) 0 4) set0)) as [Hnd Hin].
    split; [intros ?; by apply Hnd, Set_add_NoDup|].
    intros y. rewrite Hin, Set_add_elem. set_solver.
Qed.

Lemma Sorted_strict (l : list string) :
  Sorted (λ a b, String.leb a b = true) l → NoDup l →
  Sorted (λ a b, String.ltb a b = true) l.
Proof.
  induction 1 as [|x l Hl IH Hx]; [constructor|].
  rewrite NoDup_cons. intros [Hnin Hnd]. constructor; [by apply IH|].
  destruct Hx as [|y l' Hxy]; constructor.
  apply leb_ne_ltb; [done|]. intros ->. apply Hnin. by left.
Qed.

Lemma years_spec (sessions : list Session) :
  NoDup (years sessions) ∧
  Sorted (λ a b, String.ltb b a = true) (years sessions) ∧
  (∀ y, y ∈ years sessions ↔
        ∃ s, s ∈ sessions ∧ Js.slice (date s) 0 4 = y).
Proof.
  unfold years. cbn zeta.
  destruct (yearSet_spec sessions []) as [Hnd Hin].
  specialize (Hnd (NoDup_nil_2)).
  set (set := foldl _ _ _) in *.
  assert (NoDup (Js.sort Js.defaultCompare set)) as Hnd'
    by (by rewrite sort_Permutation).
  split_and!.
  - by rewrite reverse_Permutation.
  - apply (Sorted_reverse (λ a b, String.ltb a b = true)).
    apply Sorted_strict; [|done].
    apply sort_Sorted_as.
    + intros a b. rewrite !defaultCompare_leb. apply String.leb_total.
    + intros a b. apply defaultCompare_leb.
  - intros y. rewrite elem_of_reverse, sort_Permutation, Hin.
    split; [intros [?%elem_of_nil|?]|]; auto; done.
Qed.

Lemma filtered_elem (Number : string → option Z) (f : Filters)
    (sessions : list Session) (s : Session) :
  s ∈ filtered Number f sessions ↔ s ∈ sessions ∧ passes Number f s.
Proof.
  unfold filtered, filterCall, Js.Array_filter. cbn [snd].
  rewrite list_elem_of_In, filter_In, <- list_elem_of_In.
  by rewrite keeps_passes.
Qed.

End Years.

(** X18: the entries of the year filter.  [years] lists a text exactly when
    it is the first four characters of the date of some record, lists none
    twice, and lists them in strictly descending order. *)
Theorem years_lists_each_year_once (sessions : list Session) :
  NoDup (History.years sessions) ∧
  Sorted (λ a b, String.ltb b a = true) (History.years sessions) ∧
  (∀ y, y ∈ History.years sessions ↔
        ∃ s, s ∈ sessions ∧ Js.slice (date s) 0 4 = y).
Proof. apply years_spec. Qed.

(** X19: a listed year has records.  Choosing an entry of the year filter,
    with the other filters neutral, never yields an empty history. *)
Theorem listed_year_has_records (Number : string → option Z)
    (sessions : list Session) (y : string) :
  y ∈ History.years sessions →
  History.filtered Number (History.onlyYear y) sessions ≠ [].
Proof.
  intros (s & Hs & Hy)%years_spec.
  assert (s ∈ History.filtered Number (History.onlyYear y) sessions) as Hin.
  { apply filtered_elem. split; [done|].
    unfold History.passes, History.locationOk, History.yearOk,
      History.monthOk, History.fromOk, History.toOk. simpl. auto 10. }
  intros Hnil. rewrite Hnil in Hin. by apply elem_of_nil in Hin.
Qed.

(** X19, on a ledger over two years. *)
Lemma listed_year_has_records_witness :
  let ledger :=
    [mkSession "b" "2024-01-01" "Barisal" 3 "2024-01-01T12:00:00.000Z";
     mkSession "a" "2023-12-31" "Dhaka" 5 "2023-12-31T09:00:00.000Z"] in
  "2023" ∈ History.years ledger ∧
  History.filtered (λ _, None) (History.onlyYear "2023") ledger ≠ [].
Proof.
  intros ledger.
  assert ("2023" ∈ History.years ledger) as Hin.
  { apply (bool_decide_unpack _). vm_compute. exact I. }
  split; [exact Hin|].
  exact (listed_year_has_records (λ _, None) ledger "2023" Hin).
Defined.

(** X20: an empty date range.  When both bounds are set and the upper one
    is smaller than the lower one, the history is empty whatever the ledger
    and the other filters. *)
Theorem empty_date_range (Number : string → option Z)
    (f : History.Filters) (sessions : list Session) :
  History.from f ≠ "" → History.to f ≠ "" →
  String.ltb (History.to f) (History.from f) = true →
  History.filtered Number f sessions = [].
Proof.
  intros Hfrom Hto Hlt.
  destruct (History.filtered Number f sessions) as [|s rest] eqn:Hf; [done|].
  assert (s ∈ History.filtered Number f sessions) as Hin
    by (rewrite Hf; by left).
  apply filtered_elem in Hin as (_ & _ & _ & _ & [?|Hlo] & [?|Hhi]);
    try done.
  pose proof (leb_trans _ _ _ Hlo Hhi) as Hle.
  apply ltb_false_leb in Hle. congruence.
Qed.

(** X20, on a range from February back to January. *)
Lemma empty_date_range_witness :
  let f := History.mkFilters "ALL" "ALL" 0 "2024-02-01" "2024-01-01" in
  let ledger :=
    [mkSession "a" "2024-01-15" "Dhaka" 5 "2024-01-15T09:00:00.000Z"] in
  String.ltb (History.to f) (History.from f) = true ∧
  History.filtered (λ _, None) f ledger = [].
Proof.
  intros f ledger.
  split; [reflexivity|].
  refine (empty_date_range (λ _, None) f ledger _ _ _).
  - discriminate.
  - discriminate.
  - reflexivity.
Defined.

(** ** Dates as shown *)
Section DateFormat.

Lemma split_hyphenFree (a : string) :
  hyphenFree a → Js.split "-"%char a = [a].
Proof.
  induction a as [|c a IH]; simpl; [done|]. intros [Hc Ha].
  rewrite bool_decide_eq_false_2 by done. by rewrite IH.
Qed.

Lemma split_piece (a b : string) :
  hyphenFree a →
  Js.split "-"%char (a +:+ String "-"%char b) = a :: Js.split "-"%char b.
Proof.
  induction a as [|c a IH]; simpl; [done|]. intros [Hc Ha].
  rewrite bool_decide_eq_false_2 by done. by rewrite IH.
Qed.

End DateFormat.

(** X21: a date as the history shows it.  For a date of three hyphen-free
    parts [y-m-d], [formatDateDMY] yields [d/m/y]; for a text without a
    hyphen the two missing parts print as [undefined]. *)
Theorem formatDateDMY_reorders (y m d : string) :
  hyphenFree y → hyphenFree m → hyphenFree d →
  formatDateDMY (y +:+ ("-" +:+ (m +:+ ("-" +:+ d))))
  = d +:+ ("/" +:+ (m +:+ ("/" +:+ y))) ∧
  formatDateDMY y = "undefined/undefined/" +:+ y.
Proof.
  intros Hy Hm Hd. unfold formatDateDMY. split.
  - change ("-" +:+ (m +:+ ("-" +:+ d)))
      with (String "-"%char (m +:+ String "-"%char d)).
    rewrite (split_piece y _ Hy), (split_piece m _ Hm), split_hyphenFree
      by done.
    done.
  - by rewrite split_hyphenFree.
Qed.

(** X21, on the first of February 2024. *)
Lemma formatDateDMY_reorders_witness :
  formatDateDMY "2024-02-01" = "01/02/2024".
Proof.
  refine (proj1 (formatDateDMY_reorders "2024" "02" "01" _ _ _));
    simpl; repeat split; discriminate.
Defined.

(** ** The exported document *)
Section ExportFacts.
Import Pdf.
Context `{!Js.Collation}.




End ExportFacts.


(** ** Installing the asset cache *)
Section Install.
Import Sw.

Lemma addAll_Some (net : Network) (urls : list string) (c c' : Cache) :
  addAll net urls c = Some c' →
  (∀ u, u ∈ urls →
        ∃ body, net u = Response true true body ∧ c' !! u = Some body)
  ∧ (∀ u, u ∉ urls → c' !! u = c !! u).
Proof.
  revert c'. induction urls as [|url rest IH]; intros c'; simpl.
  - intros [= <-]. split; [by intros u ?%elem_of_nil|done].
  - destruct (net url) as [|[|] [|] body] eqn:Hnet; try done.
    destruct (addAll net rest c) as [c1|]; simpl; [|done].
    intros [= <-]. destruct (IH c1 eq_refl) as [Hin Hout]. split.
    + intros u Hu. destruct (decide (u = url)) as [->|Hne].
      * exists body. by rewrite lookup_insert_eq.
      * rewrite lookup_insert_ne by done. apply Hin. set_solver.
    + intros u Hu. rewrite lookup_insert_ne by set_solver.
      apply Hout. set_solver.
Qed.

Lemma addAll_is_Some (net : Network) (urls : list string) (c : Cache) :
  is_Some (addAll net urls c) ↔ ∀ u, u ∈ urls → served net u.
Proof.
  induction urls as [|url rest IH]; simpl.
  - split; [by intros _ u ?%elem_of_nil|eauto].
  - split.
    + destruct (net url) as [|[|] [|] body] eqn:Hnet;
        try (by intros [? [=]]).
      destruct (addAll net rest c) as [c1|]; simpl;
        [|by intros [? [=]]].
      intros _ u [->|Hu]%elem_of_cons; [by exists body|].
      apply IH; eauto.
    + intros Hall. destruct (Hall url) as [body ->]; [by left|].
      destruct (proj2 IH) as [c1 ->]; [|by eexists].
      intros u Hu. apply Hall. by right.
Qed.

Lemma caches_open_spec (name : string) (caches : CacheStorage) :
  let '(caches1, c) := caches_open name caches in
  caches1 !! name = Some c ∧
  (∀ name', name' ≠ name → caches1 !! name' = caches !! name') ∧
  (∀ u, c !! u = cachedIn name u caches).
Proof.
  unfold caches_open, cachedIn.
  destruct (caches !! name) as [c|] eqn:Hc; simpl.
  - by rewrite Hc.
  - rewrite lookup_insert_eq. split_and!; [done| |done].
    intros name' Hne. by rewrite lookup_insert_ne.
Qed.

End Install.

(** X23: installing is all or nothing.  The install handler succeeds
    exactly when the network serves every asset of the manifest with a
    status in the 200s and a response the cache takes (not a partial one,
    none that varies on everything).  Then the cache named [CACHE] holds
    each asset with the body served and keeps its other entries; otherwise
    it keeps every entry it had and gains none.  Either way the cache exists
    afterwards and no other cache is touched. *)
Theorem install_is_all_or_nothing (net : Sw.Network)
    (caches : gmap string (gmap string string)) :
  let ok := (Sw.install net caches).1 in
  let caches' := (Sw.install net caches).2 in
  (ok = true ↔ ∀ u, u ∈ Sw.ASSETS → Sw.served net u) ∧
  (ok = true →
   (∀ u, u ∈ Sw.ASSETS →
         ∃ body, net u = Sw.Response true true body ∧
                 Sw.cachedIn Sw.CACHE u caches' = Some body) ∧
   (∀ u, u ∉ Sw.ASSETS →
         Sw.cachedIn Sw.CACHE u caches' = Sw.cachedIn Sw.CACHE u caches)) ∧
  (ok = false →
   ∀ u, Sw.cachedIn Sw.CACHE u caches' = Sw.cachedIn Sw.CACHE u caches) ∧
  is_Some (caches' !! Sw.CACHE) ∧
  (∀ name, name ≠ Sw.CACHE → caches' !! name = caches !! name).
Proof.
  unfold Sw.install.
  pose proof (caches_open_spec Sw.CACHE caches) as Hopen.
  destruct (Sw.caches_open Sw.CACHE caches) as [caches1 c].
  destruct Hopen as (Hc & Hother & Hentries).
  pose proof (addAll_is_Some net Sw.ASSETS c) as Hsome.
  destruct (Sw.addAll net Sw.ASSETS c) as [c'|] eqn:Hadd; simpl.
  - destruct (addAll_Some _ _ _ _ Hadd) as [Hin Hout].
    unfold Sw.cachedIn. rewrite lookup_insert_eq. simpl.
    split_and!; [| |done|eauto|].
    + split; [intros _; by apply Hsome|done].
    + intros _. split; [done|].
      intros u Hu. rewrite Hout by done. apply Hentries.
    + intros name Hne. rewrite lookup_insert_ne by done. by apply Hother.
  - split_and!; [|done| |eauto|done].
    + split; [done|]. intros Hall. by apply Hsome in Hall as [? [=]].
    + intros _ u. unfold Sw.cachedIn at 1. rewrite Hc. simpl.
      apply Hentries.
Qed.

(** X23, on an empty device: over a network that serves every URL the
    install succeeds and the shell is cached; over one that answers with
    partial responses it fails and nothing is cached. *)
Lemma install_is_all_or_nothing_witness :
  ((Sw.install Sw.echo ∅).1 = true ∧
   ∃ body, Sw.echo "/index.html" = Sw.Response true true body ∧
           Sw.cachedIn Sw.CACHE "/index.html" (Sw.install Sw.echo ∅).2
           = Some body) ∧
  ((Sw.install Sw.partial ∅).1 = false ∧
   ∀ u, Sw.cachedIn Sw.CACHE u (Sw.install Sw.partial ∅).2
        = Sw.cachedIn Sw.CACHE u ∅).
Proof.
  split; (split; [reflexivity|]).
  - refine (proj1 (proj1 (proj2 (install_is_all_or_nothing Sw.echo ∅)) _)
              "/index.html" _).
    + reflexivity.
    + apply (bool_decide_unpack _). vm_compute. exact I.
  - refine (proj1 (proj2 (proj2 (install_is_all_or_nothing Sw.partial ∅)))
              _).
    reflexivity.
Defined.

(** ** Answering requests *)
Section Fetch.
Import Sw.

Lemma caches_match_Some (u body : string) (caches : CacheStorage) :
  caches_match u caches = Some body →
  ∃ name, cachedIn name u caches = Some body.
Proof.
  unfold caches_match, cachedIn.
  intros ([name c] & Hin & Hc)%head_Some_elem_of%list_elem_of_omap.
  apply elem_of_map_to_list in Hin. exists name. by rewrite Hin.
Qed.

Lemma caches_match_None (u : string) (caches : CacheStorage) :
  caches_match u caches = None ↔ ∀ name, cachedIn name u caches = None.
Proof.
  unfold caches_match, cachedIn. rewrite head_None. split.
  - intros Hnil name. destruct (caches !! name) as [c|] eqn:Hc; [|done].
    simpl. destruct (c !! u) as [body|] eqn:Hu; [|done].
    assert (body ∈ omap (λ entry : string * Cache, entry.2 !! u)
                     (map_to_list caches)) as Hin.
    { apply list_elem_of_omap. exists (name, c).
      split; [by apply elem_of_map_to_list|done]. }
    rewrite Hnil in Hin. by apply elem_of_nil in Hin.
  - intros Hall.
    destruct (omap _ (map_to_list caches)) as [|body rest] eqn:Ho; [done|].
    assert (body ∈ omap (λ entry : string * Cache, entry.2 !! u)
                     (map_to_list caches)) as Hin
      by (rewrite Ho; by left).
    apply list_elem_of_omap in Hin as ([name c] & Hin & Hc).
    apply elem_of_map_to_list in Hin. specialize (Hall name).
    rewrite Hin in Hall. simpl in *. congruence.
Qed.

(** A URL held by one cache only is matched with what that cache holds. *)
Lemma caches_match_only (u body name : string) (caches : CacheStorage) :
  cachedIn name u caches = Some body →
  (∀ name', name' ≠ name → cachedIn name' u caches = None) →
  caches_match u caches = Some body.
Proof.
  intros Hin Hothers.
  destruct (caches_match u caches) as [b|] eqn:Hm.
  - apply caches_match_Some in Hm as [name' Hb].
    destruct (decide (name' = name)) as [->|Hne]; [congruence|].
    rewrite Hothers in Hb by done. done.
  - rewrite caches_match_None in Hm. by rewrite Hm in Hin.
Qed.

Lemma cachePut_cachedIn (u body name u' : string) (caches : CacheStorage) :
  cachedIn name u' (cachePut u true body caches)
  = if decide (name = CACHE ∧ u' = u) then Some body
    else cachedIn name u' caches.
Proof.
  unfold cachePut.
  pose proof (caches_open_spec CACHE caches) as Hopen.
  destruct (caches_open CACHE caches) as [caches1 c].
  destruct Hopen as (Hc & Hother & Hentries).
  unfold cachedIn at 1.
  destruct (decide (name = CACHE)) as [->|Hne].
  - rewrite lookup_insert_eq. simpl.
    destruct (decide (u' = u)) as [->|Hu].
    + rewrite lookup_insert_eq. by rewrite decide_True.
    + rewrite lookup_insert_ne by done.
      rewrite decide_False by naive_solver. apply Hentries.
  - rewrite lookup_insert_ne by done. rewrite Hother by done.
    by rewrite decide_False by naive_solver.
Qed.

(** A response the cache refuses leaves every entry as it was. *)
Lemma cachePut_refused (u body name u' : string) (caches : CacheStorage) :
  cachedIn name u' (cachePut u false body caches) = cachedIn name u' caches.
Proof.
  unfold cachePut.
  pose proof (caches_open_spec CACHE caches) as Hopen.
  destruct (caches_open CACHE caches) as [caches1 c].
  destruct Hopen as (Hc & Hother & Hentries).
  unfold cachedIn at 1.
  destruct (decide (name = CACHE)) as [->|Hne].
  - rewrite Hc. simpl. apply Hentries.
  - by rewrite Hother.
Qed.

(** Where [CACHE] is the only cache, a request is matched with what it
    holds. *)
Lemma caches_match_single (u : string) (caches : CacheStorage) :
  (∀ name, name ≠ CACHE → caches !! name = None) →
  caches_match u caches = cachedIn CACHE u caches.
Proof.
  intros Hsingle.
  assert (∀ name, name ≠ CACHE → cachedIn name u caches = None) as Hothers.
  { intros name Hne. unfold cachedIn. by rewrite Hsingle. }
  destruct (cachedIn CACHE u caches) as [body|] eqn:Hin.
  - by apply (caches_match_only u body CACHE).
  - apply caches_match_None. intros name.
    destruct (decide (name = CACHE)) as [->|Hne]; auto.
Qed.

End Fetch.

(** X24: what the fetch handler leaves alone.  A request whose method is
    not GET is not answered by the handler and the caches stay as they are;
    a GET request for a URL that some cache holds is answered with a stored
    response, the caches stay as they are, and the network plays no part:
    the outcome is the same for every network. *)
Theorem fetch_passes_and_hits (net : Sw.Network) (req : Sw.Request)
    (caches : gmap string (gmap string string)) :
  (Sw.method req ≠ "GET" →
   Sw.handleFetch net req caches = (Sw.PassThrough, caches)) ∧
  (Sw.method req = "GET" →
   ∀ name body,
     Sw.cachedIn name (Sw.url req) caches = Some body →
     ∃ cached name',
       Sw.cachedIn name' (Sw.url req) caches = Some cached ∧
       ∀ net', Sw.handleFetch net' req caches
               = (Sw.Respond (Some cached), caches)).
Proof.
  unfold Sw.handleFetch. split.
  - intros Hm. by rewrite bool_decide_eq_false_2.
  - intros Hm name body Hin. rewrite bool_decide_eq_true_2 by done. simpl.
    destruct (Sw.caches_match (Sw.url req) caches) as [cached|] eqn:Hmatch.
    + destruct (caches_match_Some _ _ _ Hmatch) as [name' Hc].
      by exists cached, name'.
    + rewrite caches_match_None in Hmatch. by rewrite Hmatch in Hin.
Qed.

(** X24, on a device whose cache holds the shell, with no connection. *)
Lemma fetch_passes_and_hits_witness :
  let caches : gmap string (gmap string string) :=
    {[ Sw.CACHE := {[ "/index.html" := "shell" ]} ]} in
  Sw.handleFetch Sw.offline (Sw.mkRequest "POST" "/index.html") caches
  = (Sw.PassThrough, caches) ∧
  ∃ cached name',
    Sw.cachedIn name' "/index.html" caches = Some cached ∧
    ∀ net', Sw.handleFetch net' (Sw.mkRequest "GET" "/index.html") caches
            = (Sw.Respond (Some cached), caches).
Proof.
  intros caches. split.
  - refine (proj1 (fetch_passes_and_hits Sw.offline
                     (Sw.mkRequest "POST" "/index.html") caches) _).
    discriminate.
  - refine (proj2 (fetch_passes_and_hits Sw.offline
                     (Sw.mkRequest "GET" "/index.html") caches)
              _ Sw.CACHE "shell" _); reflexivity.
Defined.

(** X25: a miss fills the cache, with what the cache takes.  When no cache
    holds the URL of a GET request and the network answers, the handler
    responds with the body received.  If the cache takes the response, then
    once the [put] has settled [CACHE] holds it, and from then on the same
    request is answered with that body from the cache, whatever the network
    does, and the caches change no more; if the cache refuses it (a partial
    response, one that varies on everything), no cache holds the URL
    afterwards either. *)
Theorem fetch_miss_then_hit (net : Sw.Network) (req : Sw.Request)
    (caches : gmap string (gmap string string)) (ok storable : bool)
    (body : string) :
  Sw.method req = "GET" →
  (∀ name, Sw.cachedIn name (Sw.url req) caches = None) →
  net (Sw.url req) = Sw.Response ok storable body →
  ∃ caches',
    Sw.handleFetch net req caches = (Sw.Respond (Some body), caches') ∧
    (storable = true →
     Sw.cachedIn Sw.CACHE (Sw.url req) caches' = Some body ∧
     ∀ net', Sw.handleFetch net' req caches'
             = (Sw.Respond (Some body), caches')) ∧
    (storable = false →
     ∀ name, Sw.cachedIn name (Sw.url req) caches' = None).
Proof.
  intros Hm Hmiss Hnet. unfold Sw.handleFetch.
  rewrite bool_decide_eq_true_2 by done. simpl.
  rewrite (proj2 (caches_match_None _ _) Hmiss), Hnet.
  eexists. split; [done|]. split.
  - intros ->.
    assert (Sw.cachedIn Sw.CACHE (Sw.url req)
              (Sw.cachePut (Sw.url req) true body caches) = Some body)
      as Hin.
    { rewrite cachePut_cachedIn. by rewrite decide_True. }
    split; [done|]. intros net'.
    rewrite (caches_match_only _ body Sw.CACHE); [done..|].
    intros name' Hne. rewrite cachePut_cachedIn.
    rewrite decide_False by naive_solver. apply Hmiss.
  - intros -> name. rewrite cachePut_refused. apply Hmiss.
Qed.

(** X25, on an empty device: a page fetched once is served offline; a
    partial response is passed on and not kept. *)
Lemma fetch_miss_then_hit_witness :
  let req := Sw.mkRequest "GET" "/about" in
  (∃ caches',
     Sw.handleFetch Sw.echo req ∅ = (Sw.Respond (Some "/about"), caches') ∧
     Sw.handleFetch Sw.offline req caches'
     = (Sw.Respond (Some "/about"), caches')) ∧
  (∃ caches',
     Sw.handleFetch Sw.partial req ∅ = (Sw.Respond (Some "/about"), caches') ∧
     Sw.cachedIn Sw.CACHE "/about" caches' = None).
Proof.
  intros req. split.
  - destruct (fetch_miss_then_hit Sw.echo req ∅ true true "/about")
      as (caches' & Hfirst & Hthen & _); [reflexivity|done|reflexivity|].
    exists caches'. split; [exact Hfirst|by apply Hthen].
  - destruct (fetch_miss_then_hit Sw.partial req ∅ true false "/about")
      as (caches' & Hfirst & _ & Hnot); [reflexivity|done|reflexivity|].
    exists caches'. split; [exact Hfirst|by apply Hnot].
Defined.

Section Lifecycle.
Import Sw.

Lemma activate_lookup (caches : CacheStorage) (k : string) :
  activate caches !! k = if decide (k = CACHE) then caches !! k else None.
Proof.
  unfold activate. rewrite activateIn_lookup.
  destruct (decide (k = CACHE)) as [->|Hk].
  - rewrite bool_decide_eq_false_2; [done|]. naive_solver.
  - case_bool_decide as Hin; [done|].
    apply eq_None_not_Some. intros Hsome%caches_keys_spec. naive_solver.
Qed.

Lemma activate_cachedIn (caches : CacheStorage) (name u : string) :
  cachedIn name u (activate caches)
  = if decide (name = CACHE) then cachedIn CACHE u caches else None.
Proof.
  unfold cachedIn. rewrite activate_lookup.
  by destruct (decide (name = CACHE)) as [->|Hk].
Qed.

(** After the activation only [CACHE] is left, so a request is matched
    with what [CACHE] holds. *)
Lemma activate_caches_match (caches : CacheStorage) (u : string) :
  caches_match u (activate caches) = cachedIn CACHE u (activate caches).
Proof.
  apply caches_match_single. intros name Hne.
  rewrite activate_lookup. by rewrite decide_False.
Qed.

(** Without a connection, the handler answers with the page if [CACHE]
    holds it and with the shell otherwise. *)
Lemma offline_answer (caches : CacheStorage) (shell u : string) :
  cachedIn CACHE "/index.html" (activate caches) = Some shell →
  handleFetch offline (mkRequest "GET" u) (activate caches)
  = (Respond (Some (default shell (cachedIn CACHE u (activate caches)))),
     activate caches).
Proof.
  intros Hshell. unfold handleFetch. simpl.
  rewrite !activate_caches_match, Hshell.
  by destruct (cachedIn CACHE u (activate caches)).
Qed.

End Lifecycle.

(** X26: the shell is there without a connection.  After an install that
    succeeded and the activation that follows, [CACHE] holds the shell
    [/index.html] as the network served it, and when the network is down
    the handler answers every GET request with the page asked for if
    [CACHE] holds it and with the shell otherwise; the caches stay as they
    are. *)
Theorem installed_app_answers_offline (net : Sw.Network)
    (caches : gmap string (gmap string string)) (u : string) :
  (Sw.install net caches).1 = true →
  let caches' := Sw.activate (Sw.install net caches).2 in
  ∃ shell,
    net "/index.html" = Sw.Response true true shell ∧
    Sw.cachedIn Sw.CACHE "/index.html" caches' = Some shell ∧
    Sw.handleFetch Sw.offline (Sw.mkRequest "GET" u) caches'
    = (Sw.Respond (Some (default shell (Sw.cachedIn Sw.CACHE u caches'))),
       caches').
Proof.
  intros Hok caches'.
  assert (∃ shell, net "/index.html" = Sw.Response true true shell ∧
                   Sw.cachedIn Sw.CACHE "/index.html"
                     (Sw.install net caches).2 = Some shell)
    as (shell & Hnet & Hsh).
  { revert Hok. unfold Sw.install.
    pose proof (caches_open_spec Sw.CACHE caches) as Hopen.
    destruct (Sw.caches_open Sw.CACHE caches) as [caches1 c].
    destruct (Sw.addAll net Sw.ASSETS c) as [c'|] eqn:Hadd; simpl; [|done].
    intros _. destruct (addAll_Some _ _ _ _ Hadd) as [Hin _].
    destruct (Hin "/index.html") as (shell & Hnet & Hc').
    { apply (bool_decide_unpack _). vm_compute. exact I. }
    exists shell. split; [done|].
    unfold Sw.cachedIn. by rewrite lookup_insert_eq. }
  assert (Sw.cachedIn Sw.CACHE "/index.html" caches' = Some shell) as Hsh'.
  { subst caches'. rewrite activate_cachedIn. by rewrite decide_True. }
  exists shell. split_and!; [done..|].
  by apply offline_answer.
Qed.

(** X26, on a device with a stale cache, installed over a network that
    serves every URL: without a connection a page that was never fetched is
    answered with the shell, an asset with the asset. *)
Lemma installed_app_answers_offline_witness :
  let caches : gmap string (gmap string string) :=
    {[ "pcache-v0" := {[ "/" := "old shell" ]} ]} in
  let caches' := Sw.activate (Sw.install Sw.echo caches).2 in
  (Sw.install Sw.echo caches).1 = true ∧
  Sw.handleFetch Sw.offline (Sw.mkRequest "GET" "/history") caches'
  = (Sw.Respond (Some "/index.html"), caches') ∧
  Sw.handleFetch Sw.offline (Sw.mkRequest "GET" "/manifest.json") caches'
  = (Sw.Respond (Some "/manifest.json"), caches').
Proof.
  intros caches caches'.
  split; [reflexivity|]. split.
  - destruct (installed_app_answers_offline Sw.echo caches "/history"
                eq_refl) as (shell & [= <-] & _ & Hanswer).
    exact Hanswer.
  - destruct (installed_app_answers_offline Sw.echo caches "/manifest.json"
                eq_refl) as (shell & [= <-] & _ & Hanswer).
    exact Hanswer.
Defined.

(** X27: one cache after activation.  Whatever caches the device held and
    whether or not the install succeeded, after install and activation the
    cache named [CACHE] exists and is the only one. *)
Theorem install_then_activate_leaves_one_cache (net : Sw.Network)
    (caches : gmap string (gmap string string)) :
  dom (Sw.activate (Sw.install net caches).2) = {[ Sw.CACHE ]}.
Proof.
  assert (is_Some ((Sw.install net caches).2 !! Sw.CACHE)) as Hcache.
  { unfold Sw.install.
    pose proof (caches_open_spec Sw.CACHE caches) as Hopen.
    destruct (Sw.caches_open Sw.CACHE caches) as [caches1 c].
    destruct Hopen as (Hc & _ & _).
    destruct (Sw.addAll net Sw.ASSETS c) as [c'|]; simpl; [|eauto].
    rewrite lookup_insert_eq. eauto. }
  apply set_eq. intros k.
  rewrite elem_of_dom, activate_lookup, elem_of_singleton.
  destruct (decide (k = Sw.CACHE)) as [->|Hk]; [done|].
  split; [by intros [? [=]]|done].
Qed.

(** ** The edges of counting *)
Section CountingEdges.
Import App.
Context `{!Js.Collation}.

Lemma step_disabled (st : State) (e : Event) :
  counterEnabled (current st) = false → counterEvent e → step st e = st.
Proof.
  intros He. destruct e as [k|k|k|v|v| | |ts uuid]; simpl; try done;
    intros _; unfold onInc, onDec, onReset; by rewrite He.
Qed.

Lemma run_latched (ledger : list Session) (d l : option string)
    (lk sf : bool) (es : list Event) :
  let st := run (mkState ledger (mkCurrent d l 0 0 lk) sf) es in
  latched (current st) ∧ countersInRange (current st).
Proof.
  split.
  - apply (run_invariant (λ st, latched (current st))).
    + apply step_latched.
    + unfold latched, totalOf. simpl. split_and!; lia.
  - apply (run_invariant (λ st, countersInRange (current st))).
    + apply step_countersInRange.
    + unfold countersInRange. simpl. lia.
Qed.

End CountingEdges.

(** X28: no counting without a selection.  While no date or no location is
    selected, the counter buttons do nothing: a sequence of increments,
    decrements and resets leaves the whole state as it was. *)
Theorem counting_needs_a_selection `{!Js.Collation} (st : App.State)
    (es : list App.Event) :
  App.counterEnabled (App.current st) = false →
  Forall App.counterEvent es →
  App.run st es = st.
Proof.
  intros He Hes. induction Hes as [|e es Hevent _ IH]; [done|].
  rewrite run_cons, step_disabled by done. apply IH.
Qed.

(** X28, on a device that has just started: no location is selected. *)
Lemma counting_needs_a_selection_witness :
  let collation : Js.Collation := Js.alphabetical in
  let st := App.start "2024-01-01" [] in
  let es := [App.Inc App.NewCount; App.Dec App.OldCount;
             App.Reset App.NewCount] in
  App.counterEnabled (App.current st) = false ∧ App.run st es = st.
Proof.
  intros collation.
  intros st es.
  split; [reflexivity|].
  refine (counting_needs_a_selection st es eq_refl _).
  repeat constructor.
Defined.

(** X29: the counters stop at their ends.  In a state reached from zero
    counters, a decrement of a counter at 0 and an increment of a counter at
    99 change nothing at all: not a counter, not the lock. *)
Theorem counters_stop_at_their_ends `{!Js.Collation} (ledger : list Session)
    (d l : option string) (lk sf : bool) (es : list App.Event)
    (key : App.CounterKey) :
  let st := App.run (App.mkState ledger (mkCurrent d l 0 0 lk) sf) es in
  (App.getCount key (App.current st) = 0 → App.onDec key st = st) ∧
  (App.getCount key (App.current st) = 99 → App.onInc key st = st).
Proof.
  intros st.
  destruct (run_latched ledger d l lk sf es)
    as [(Hn & Ho & Hlatch) [Hrn Hro]].
  fold st in Hn, Ho, Hlatch, Hrn, Hro.
  unfold App.totalOf in Hlatch.
  destruct st as [sessions [cd cl n o locked0] show]. simpl in *.
  unfold App.onDec, App.onInc, App.setCurrent. simpl.
  split; intros Hkey;
    (destruct (App.counterEnabled _); simpl; [|done]);
    destruct key; simpl in *; subst;
    unfold clamp, Js.Math_max, Js.Math_min; simpl;
    repeat f_equal.
  - destruct locked0; [done|]. simpl.
    destruct (0 <? 0 + o) eqn:Hpos; [|done].
    apply Z.ltb_lt in Hpos. symmetry. apply Hlatch. lia.
  - destruct locked0; [done|]. simpl.
    destruct (0 <? n + 0) eqn:Hpos; [|done].
    apply Z.ltb_lt in Hpos. symmetry. apply Hlatch. lia.
  - rewrite Hlatch by lia. done.
  - rewrite Hlatch by lia. done.
Qed.

(** X29, on a session that counted one patient and took the count back. *)
Lemma counters_stop_at_their_ends_witness :
  let collation : Js.Collation := Js.alphabetical in
  let st :=
    App.run
      (App.mkState []
         (mkCurrent (Some "2024-01-01") (Some "Dhaka") 0 0 false) false)
      [App.Inc App.NewCount; App.Dec App.NewCount] in
  App.getCount App.NewCount (App.current st) = 0 ∧
  App.onDec App.NewCount st = st.
Proof.
  intros collation.
  intros st.
  split; [reflexivity|].
  exact (proj1 (counters_stop_at_their_ends [] (Some "2024-01-01")
                  (Some "Dhaka") false false
                  [App.Inc App.NewCount; App.Dec App.NewCount]
                  App.NewCount) eq_refl).
Defined.

(** X30: the fetch handler never drops a stored response.  Whatever the
    request and the network, every response held by a cache before the
    handler ran is held by the same cache, under the same URL, after it. *)
Theorem fetch_keeps_what_is_cached (net : Sw.Network) (req : Sw.Request)
    (caches : gmap string (gmap string string)) (name u body : string) :
  Sw.cachedIn name u caches = Some body →
  Sw.cachedIn name u (Sw.handleFetch net req caches).2 = Some body.
Proof.
  intros Hin. unfold Sw.handleFetch.
  destruct (negb _); [done|].
  destruct (Sw.caches_match (Sw.url req) caches) as [cached|] eqn:Hmatch;
    [done|].
  destruct (net (Sw.url req)) as [|ok [|] b]; [done| |]; simpl.
  - rewrite cachePut_cachedIn.
    destruct (decide (name = Sw.CACHE ∧ u = Sw.url req)) as [[-> ->]|];
      [|done].
    rewrite caches_match_None in Hmatch. by rewrite Hmatch in Hin.
  - by rewrite cachePut_refused.
Qed.

(** X30, on a device with a stale cache and a request the network
    answers. *)
Lemma fetch_keeps_what_is_cached_witness :
  let caches : gmap string (gmap string string) :=
    {[ "pcache-v0" := {[ "/" := "old shell" ]} ]} in
  Sw.cachedIn "pcache-v0" "/" caches = Some "old shell" ∧
  Sw.cachedIn "pcache-v0" "/"
    (Sw.handleFetch Sw.echo (Sw.mkRequest "GET" "/about") caches).2
  = Some "old shell".
Proof.
  intros caches.
  split; [reflexivity|].
  exact (fetch_keeps_what_is_cached Sw.echo (Sw.mkRequest "GET" "/about")
           caches "pcache-v0" "/" "old shell" eq_refl).
Defined.
